(** * hetkinen: the note-voice engine of [src/App.tsx]

    A shallow embedding of the React component file [App.tsx]: the pitch and
    naming utilities, the sample loader, the reverb bootstrap effect, and the
    per-key voice controller ([NoteButton.start] / [NoteButton.stop]) running
    against a model of the Web Audio objects it drives. *)

From Stdlib Require Import ZArith QArith DecimalString Reals Lra.
From Stdlib Require DecimalPos DecimalZ PrimFloat.
From stdpp Require Import gmap strings list fin_maps.

Local Open Scope Z_scope.

(** ** JavaScript values used by the file *)

Module JS.

(** The source computes with binary64 numbers.  The functions below model
    its arithmetic on the safe integers ([Number.isSafeInteger]), where that
    arithmetic is exact; what is proved through them about the code is
    stated for safe integers. *)
Definition safeInteger (n : Z) : Prop := - 2 ^ 53 < n < 2 ^ 53.

(** [`${x}`] for an integral number: decimal digits, a leading minus sign
    for negatives.  (From 1e21 on the template prints exponent notation,
    which this does not.) *)
Definition numberToString (z : Z) : string :=
  NilZero.string_of_int (Z.to_int z).

(** [`${x}`] for a value that may be [undefined]. *)
Definition templateOfOption (o : option string) : string :=
  match o with
  | Some s => s
  | None => "undefined"
  end.

(** [a % b]: the remainder takes the sign of the dividend. *)
Definition remainder (a b : Z) : Z := Z.rem a b.

(** [Math.floor(a / b)] for a safe integer [a] and [b = 12]: the binary64
    quotient is then at most 1/16 away from the exact one, which is never
    closer than 1/12 to the next integer, so its floor is the exact floor.
    (For larger [a] the quotient can round up to the next integer.) *)
Definition floorDiv (a b : Z) : Z := a / b.

(** [arr[i]] for an integral [i]: a negative index names no element. *)
Definition index {A} (arr : list A) (i : Z) : option A :=
  if i <? 0 then None else nth_error arr (Z.to_nat i).

End JS.

(** Numbers that go through [Math.pow] are IEEE doubles whose value the
    language leaves to the implementation; they are kept as the expression
    that computes them. *)
Inductive number : Type :=
| NInt (z : Z)
| NSub (a b : number)
| NMul (a b : number)
| NDiv (a b : number)
| NPow (a b : number).

(** The value an expression has when evaluated with exact real arithmetic. *)
Fixpoint realValue (x : number) : R :=
  match x with
  | NInt z => IZR z
  | NSub a b => (realValue a - realValue b)%R
  | NMul a b => (realValue a * realValue b)%R
  | NDiv a b => (realValue a / realValue b)%R
  | NPow a b => Rpower (realValue a) (realValue b)
  end.

(** ** Pitch and naming utilities (App.tsx, lines 17-39) *)

Definition midiNoteToPitch (note : number) : number :=
  NMul (NInt 440) (NPow (NInt 2) (NDiv (NSub note (NInt 69)) (NInt 12))).

Definition names : list string :=
  ["C"; "C#"; "D"; "D#"; "E"; "F"; "F#"; "G"; "G#"; "A"; "A#"; "B"].

Definition midiNoteToName (note : Z) : string :=
  let octave := JS.floorDiv note 12 - 1 in
  let name := JS.index names (JS.remainder note 12) in
  JS.templateOfOption name ++ JS.numberToString octave.

(** The playback-rate ratio computed at the top of [start] (line 96). *)
Definition pitchRatio (note : Z) : number :=
  NDiv (midiNoteToPitch (NInt note)) (midiNoteToPitch (NInt 60)).

(** *** The same expressions in binary64 *)

Module Binary64.
Import PrimFloat.
Local Open Scope float_scope.

(** An integer literal or an integral argument as a binary64 number (exact
    below 2^53). *)
Fixpoint ofPositive (p : positive) : float :=
  match p with
  | xH => 1
  | xO q => 2 * ofPositive q
  | xI q => 2 * ofPositive q + 1
  end.

Definition ofZ (z : Z) : float :=
  match z with
  | Z0 => 0
  | Zpos p => ofPositive p
  | Zneg p => - ofPositive p
  end.

(** The binary64 value of an expression: the arithmetic is IEEE 754, and
    [Math.pow], which the language leaves to the implementation, is the
    parameter [pow]. *)
Fixpoint floatValue (pow : float -> float -> float) (x : number) : float :=
  match x with
  | NInt z => ofZ z
  | NSub a b => floatValue pow a - floatValue pow b
  | NMul a b => floatValue pow a * floatValue pow b
  | NDiv a b => floatValue pow a / floatValue pow b
  | NPow a b => pow (floatValue pow a) (floatValue pow b)
  end.

(** [a == b] on numbers. *)
Definition equals (a b : float) : bool := a =? b.

Definition double (a : float) : float := 2 * a.

(** A result that is the correctly rounded one or one of its two
    neighbours. *)
Definition withinOneUlp (rounded got : float) : Prop :=
  got = next_down rounded \/ got = rounded \/ got = next_up rounded.

(** The correctly rounded values of 2^1015, 2^1016 and 2^(-3/4). *)
Definition pow2_1015 : float := 0x1p1015.
Definition pow2_1016 : float := 0x1p1016.
Definition pow2_m075 : float := 0x1.306fe0a31b715p-1.

(** What is assumed of [Math.pow]: at the three arguments below its result
    is within one unit in the last place of the correctly rounded one. *)
Record PowAccurate (pow : float -> float -> float) : Prop := {
  pow_1015 : withinOneUlp pow2_1015 (pow 2 1015);
  pow_1016 : withinOneUlp pow2_1016 (pow 2 1016);
  pow_m075 : withinOneUlp pow2_m075 (pow 2 (-0.75));
}.

(** A function that is correctly rounded at the three arguments. *)
Definition tablePow (x y : float) : float :=
  if y =? 1015 then pow2_1015
  else if y =? 1016 then pow2_1016
  else pow2_m075.

End Binary64.

(** The display name as the specification words it: the pitch class at
    index [n mod 12] of the cycle, followed by octave [floor(n/12) - 1]. *)
Definition displayName_spec (n : Z) : string :=
  nth (Z.to_nat (n mod 12)) names "" ++ JS.numberToString (n / 12 - 1).

(** ** Sample loading (App.tsx, lines 8-15) *)

(** A decoded audio buffer, identified by the asset it was decoded from. *)
Inductive AudioBuffer : Type := Decoded (src : string).

#[global] Instance AudioBuffer_eq_dec : EqDecision AudioBuffer.
Proof. solve_decision. Defined.

(** What the network and the decoder answer for one asset. *)
Inductive Asset : Type :=
| AssetPending                       (* the promise has not settled yet *)
| AssetNetworkError (msg : string)   (* [fetch] itself rejects *)
| AssetResponse (ok : bool) (decodes : bool).

#[global] Instance Asset_eq_dec : EqDecision Asset.
Proof. solve_decision. Defined.

Inductive Settled (A : Type) : Type :=
| StillPending
| Rejected (msg : string)
| Resolved (a : A).
Arguments StillPending {A}.
Arguments Rejected {A} msg.
Arguments Resolved {A} a.

(** The async fetcher handed to [useSWR]. *)
Definition fetcher (src : string) (a : Asset) : Settled AudioBuffer :=
  match a with
  | AssetPending => StillPending
  | AssetNetworkError msg => Rejected msg
  | AssetResponse false _ => Rejected "Failed to fetch audio"
  | AssetResponse true false => Rejected "EncodingError"
  | AssetResponse true true => Resolved (Decoded src)
  end.

(** The part of the SWR response the component reads. *)
Record SWRResponse : Type := {
  data : option AudioBuffer;
  error : option string;
}.

Definition useSampleData (src : string) (a : Asset) : SWRResponse :=
  match fetcher src a with
  | StillPending => {| data := None; error := None |}
  | Rejected msg => {| data := None; error := Some msg |}
  | Resolved b => {| data := Some b; error := None |}
  end.

(** An asset that was fetched and decoded. *)
Definition loaded : Asset := AssetResponse true true.

Definition headWav : string := "./head.wav".
Definition loopWav : string := "./loop.wav".
Definition tailWav : string := "./tail.wav".
Definition convolutionWav : string := "./teufelsberg.wav".

(** ** The Web Audio objects the component drives *)

(** [audioContext.state]; the context is never closed by the program. *)
Inductive ContextState : Type := Suspended | Running.

Inductive Exn : Type := InvalidStateError | TypeError.

(** The two closures the voice controller registers on nodes.  The first
    closes over a node (the [loopSource] constant of one [start] call), the
    second over a React ref (the [tailSourceRef] of the component), whose
    content is read when the closure runs. *)
Inductive Callback : Type :=
| StartSource (n : nat)        (* () => { loopSource.start(); } *)
| StopSourceRef (r : nat).     (* () => stopSourceRef(tailSourceRef) *)

(** An [AudioBufferSourceNode].  [src_outputs] are the nodes it is connected
    to; [src_started] and [src_stopped] record that [start()] / [stop()] took
    effect, [src_ended] that its "ended" event has been dispatched. *)
Record SourceNode : Type := mkSource {
  src_buffer : option AudioBuffer;
  src_loop : bool;
  src_playbackRate : number;
  src_outputs : gset nat;
  src_started : bool;
  src_stopped : bool;
  src_ended : bool;
  src_listeners : list Callback;
  src_onended : option Callback;
}.

(** The nodes a voice is routed through. *)
Inductive RouteKind : Type :=
| Destination
| Gain (gain : Q)                   (* the value assigned to [gain.value] *)
| Convolver (buffer : option AudioBuffer).

Record RouteNode : Type := mkRoute {
  r_kind : RouteKind;
  r_outputs : gset nat;
}.

(** Every call the program makes on the Web Audio interface, in order. *)
Inductive Call : Type :=
| CResume
| CCreateBufferSource (n : nat)
| CCreateGain (n : nat)
| CCreateConvolver (n : nat)
| CConnect (n d : nat)
| CDisconnect (n : nat)
| CStart (n : nat)
| CStop (n : nat).

(** The audio context with its nodes, together with the React refs of the
    mounted components.  A ref that holds [null] is absent from [refs];
    [buttons] maps a [buttonRef] whose button is mounted to the button's
    [style.transform]. *)
Record World : Type := mkWorld {
  ctx_state : ContextState;
  next_id : nat;
  sources : gmap nat SourceNode;
  routes : gmap nat RouteNode;
  refs : gmap nat nat;
  buttons : gmap nat string;
  calls : list Call;
}.

Definition with_state (st : ContextState) (w : World) : World :=
  mkWorld st (next_id w) (sources w) (routes w) (refs w) (buttons w) (calls w).
Definition with_next_id (n : nat) (w : World) : World :=
  mkWorld (ctx_state w) n (sources w) (routes w) (refs w) (buttons w) (calls w).
Definition with_sources (m : gmap nat SourceNode) (w : World) : World :=
  mkWorld (ctx_state w) (next_id w) m (routes w) (refs w) (buttons w) (calls w).
Definition with_routes (m : gmap nat RouteNode) (w : World) : World :=
  mkWorld (ctx_state w) (next_id w) (sources w) m (refs w) (buttons w) (calls w).
Definition with_refs (m : gmap nat nat) (w : World) : World :=
  mkWorld (ctx_state w) (next_id w) (sources w) (routes w) m (buttons w) (calls w).
Definition with_buttons (m : gmap nat string) (w : World) : World :=
  mkWorld (ctx_state w) (next_id w) (sources w) (routes w) (refs w) m (calls w).
Definition with_calls (l : list Call) (w : World) : World :=
  mkWorld (ctx_state w) (next_id w) (sources w) (routes w) (refs w) (buttons w) l.

Definition record (c : Call) (w : World) : World := with_calls (calls w ++ [c]) w.

(** *** Computations that may throw *)

Inductive Res (A : Type) : Type :=
| Ok (a : A) (w : World)
| Throw (e : Exn) (w : World).
Arguments Ok {A} a w.
Arguments Throw {A} e w.

Definition M (A : Type) : Type := World -> Res A.

Definition ret {A} (a : A) : M A := fun w => Ok a w.
Definition throw {A} (e : Exn) : M A := fun w => Throw e w.
Definition bind {A B} (m : M A) (k : A -> M B) : M B :=
  fun w => match m w with
           | Ok a w' => k a w'
           | Throw e w' => Throw e w'
           end.
(** [try { m } catch (e) { }] *)
Definition tryCatch (m : M unit) : M unit :=
  fun w => match m w with
           | Ok a w' => Ok a w'
           | Throw _ w' => Ok tt w'
           end.
Definition modify (f : World -> World) : M unit := fun w => Ok tt (f w).

Notation "'let!' x ':=' m 'in' k" := (bind m (fun x => k))
  (at level 10, x name, m at level 100, k at level 200).
Notation "m '>>' k" := (bind m (fun _ => k))
  (at level 100, k at level 200, right associativity).

Definition worldOf {A} (r : Res A) : World :=
  match r with
  | Ok _ w => w
  | Throw _ w => w
  end.

Definition returns {A} (r : Res A) : Prop :=
  match r with
  | Ok _ _ => True
  | Throw _ _ => False
  end.

(** *** Node methods *)

Definition newSource : SourceNode :=
  mkSource None false (NInt 1) ∅ false false false [] None.

Definition updateSource (n : nat) (f : SourceNode -> SourceNode) : M unit :=
  fun w => match sources w !! n with
           | Some s => Ok tt (with_sources (<[n := f s]> (sources w)) w)
           | None => Throw TypeError w
           end.

Definition set_buffer (b : option AudioBuffer) (s : SourceNode) : SourceNode :=
  mkSource b (src_loop s) (src_playbackRate s) (src_outputs s) (src_started s)
    (src_stopped s) (src_ended s) (src_listeners s) (src_onended s).
Definition set_loop (b : bool) (s : SourceNode) : SourceNode :=
  mkSource (src_buffer s) b (src_playbackRate s) (src_outputs s) (src_started s)
    (src_stopped s) (src_ended s) (src_listeners s) (src_onended s).
Definition set_playbackRate (x : number) (s : SourceNode) : SourceNode :=
  mkSource (src_buffer s) (src_loop s) x (src_outputs s) (src_started s)
    (src_stopped s) (src_ended s) (src_listeners s) (src_onended s).
Definition set_outputs (o : gset nat) (s : SourceNode) : SourceNode :=
  mkSource (src_buffer s) (src_loop s) (src_playbackRate s) o (src_started s)
    (src_stopped s) (src_ended s) (src_listeners s) (src_onended s).
Definition set_started (b : bool) (s : SourceNode) : SourceNode :=
  mkSource (src_buffer s) (src_loop s) (src_playbackRate s) (src_outputs s) b
    (src_stopped s) (src_ended s) (src_listeners s) (src_onended s).
Definition set_stopped (b : bool) (s : SourceNode) : SourceNode :=
  mkSource (src_buffer s) (src_loop s) (src_playbackRate s) (src_outputs s)
    (src_started s) b (src_ended s) (src_listeners s) (src_onended s).
Definition set_ended (b : bool) (s : SourceNode) : SourceNode :=
  mkSource (src_buffer s) (src_loop s) (src_playbackRate s) (src_outputs s)
    (src_started s) (src_stopped s) b (src_listeners s) (src_onended s).
Definition set_listeners (l : list Callback) (s : SourceNode) : SourceNode :=
  mkSource (src_buffer s) (src_loop s) (src_playbackRate s) (src_outputs s)
    (src_started s) (src_stopped s) (src_ended s) l (src_onended s).
Definition set_onended (c : option Callback) (s : SourceNode) : SourceNode :=
  mkSource (src_buffer s) (src_loop s) (src_playbackRate s) (src_outputs s)
    (src_started s) (src_stopped s) (src_ended s) (src_listeners s) c.

(** [audioContext.resume()].  The call only asks for the context to be
    resumed and returns a promise, which the caller drops;
    [audioContext.state] changes when that promise settles, later (the step
    [StepResumed] below), so it still reads "suspended" right after the
    call. *)
Definition resume : M unit :=
  modify (record CResume).

(** [audioContext.createBufferSource()] *)
Definition createBufferSource : M nat :=
  fun w =>
    let n := next_id w in
    Ok n (with_next_id (S n)
            (with_sources (<[n := newSource]> (sources w))
               (record (CCreateBufferSource n) w))).

(** [node.connect(destinationNode)]: a connection that exists already is
    not doubled. *)
Definition connect (n d : nat) : M unit :=
  modify (record (CConnect n d)) >>
  updateSource n (fun s => set_outputs (src_outputs s ∪ {[d]}) s).

(** [node.disconnect()]: drops every outgoing connection. *)
Definition disconnect (n : nat) : M unit :=
  modify (record (CDisconnect n)) >>
  updateSource n (set_outputs ∅).

(** [node.start()]: a node can be started once. *)
Definition sourceStart (n : nat) : M unit :=
  modify (record (CStart n)) >>
  fun w => match sources w !! n with
           | None => Throw TypeError w
           | Some s =>
               if src_started s then Throw InvalidStateError w
               else Ok tt (with_sources (<[n := set_started true s]> (sources w)) w)
           end.

(** [node.stop()]: only a node that was started can be stopped. *)
Definition sourceStop (n : nat) : M unit :=
  modify (record (CStop n)) >>
  fun w => match sources w !! n with
           | None => Throw TypeError w
           | Some s =>
               if src_started s
               then Ok tt (with_sources (<[n := set_stopped true s]> (sources w)) w)
               else Throw InvalidStateError w
           end.

(** [node.addEventListener("ended", cb)] *)
Definition addEndedListener (n : nat) (cb : Callback) : M unit :=
  updateSource n (fun s => set_listeners (src_listeners s ++ [cb]) s).

(** [node.onended = cb] *)
Definition assignOnended (n : nat) (cb : Callback) : M unit :=
  updateSource n (set_onended (Some cb)).

(** [ref.current] and [ref.current = v] *)
Definition current (r : nat) : M (option nat) := fun w => Ok (refs w !! r) w.
Definition setCurrent (r : nat) (v : option nat) : M unit :=
  modify (fun w => with_refs (match v with
                              | Some n => <[r := n]> (refs w)
                              | None => delete r (refs w)
                              end) w).

(** [const button = buttonRef.current; if (button) button.style.transform = t] *)
Definition setButtonTransform (r : nat) (t : string) : M unit :=
  modify (fun w => match buttons w !! r with
                   | Some _ => with_buttons (<[r := t]> (buttons w)) w
                   | None => w
                   end).

(** ** The voice controller (App.tsx, lines 41-141) *)

Definition stopSourceRef (sourceRef : nat) : M unit :=
  let! headSource := current sourceRef in
  match headSource with
  | Some headSource =>
      tryCatch (sourceStop headSource) >>
      disconnect headSource
  | None => ret tt
  end >>
  setCurrent sourceRef None.

Fixpoint connectAll (node : nat) (destinationNodes : list nat) : M unit :=
  match destinationNodes with
  | [] => ret tt
  | destinationNode :: rest => connect node destinationNode >> connectAll node rest
  end.

(** Lines 56-71.  The assignment [playbackRate.value = pitch] is modelled
    for a [pitch] that is a finite number, as it is for every MIDI note
    number; the browser rejects a non-finite one with a [TypeError]. *)
Definition createSourceNode (buffer : AudioBuffer) (pitch : number)
    (destinationNodes : list nat) (loop : bool) : M nat :=
  let! node := createBufferSource in
  updateSource node (set_buffer (Some buffer)) >>
  updateSource node (set_loop loop) >>
  updateSource node (set_playbackRate pitch) >>
  connectAll node destinationNodes >>
  ret node.

Module NoteButtonProps.
(** The [audioContext] prop is the context of the [World]. *)
Record t : Type := {
  tone : Z;
  octave : Z;
  destinationNodes : list nat;
  head : AudioBuffer;
  loop : AudioBuffer;
  tail : AudioBuffer;
}.
End NoteButtonProps.

(** A mounted [NoteButton]: its props and the refs [useRef] gave it. *)
Record NoteButton : Type := {
  props : NoteButtonProps.t;
  headSourceRef : nat;
  loopSourceRef : nat;
  tailSourceRef : nat;
  buttonRef : nat;
}.

Definition note (k : NoteButton) : Z :=
  60 + NoteButtonProps.octave (props k) * 12 + NoteButtonProps.tone (props k).

Definition start (k : NoteButton) : M unit :=
  let destinationNodes := NoteButtonProps.destinationNodes (props k) in
  (fun w => match ctx_state w with
            | Running => Ok tt w
            | Suspended => resume w
            end) >>
  let pitch := NDiv (midiNoteToPitch (NInt (note k))) (midiNoteToPitch (NInt 60)) in
  let! headSource :=
    createSourceNode (NoteButtonProps.head (props k)) pitch destinationNodes false in
  sourceStart headSource >>
  setCurrent (headSourceRef k) (Some headSource) >>
  let! loopSource :=
    createSourceNode (NoteButtonProps.loop (props k)) pitch destinationNodes true in
  updateSource loopSource (set_loop true) >>
  setCurrent (loopSourceRef k) (Some loopSource) >>
  let! tailSource :=
    createSourceNode (NoteButtonProps.tail (props k)) pitch destinationNodes false in
  setCurrent (tailSourceRef k) (Some tailSource) >>
  addEndedListener headSource (StartSource loopSource) >>
  setButtonTransform (buttonRef k) "scale(0.8)".

Definition stop (k : NoteButton) : M unit :=
  setButtonTransform (buttonRef k) "scale(1)" >>
  stopSourceRef (headSourceRef k) >>
  stopSourceRef (loopSourceRef k) >>
  let! tailSource := current (tailSourceRef k) in
  match tailSource with
  | Some tailSource =>
      tryCatch (sourceStart tailSource) >>
      assignOnended tailSource (StopSourceRef (tailSourceRef k))
  | None => ret tt
  end.

(** The gestures the button listens to, and the handler bound to each. *)
Inductive Gesture : Type := MouseDown | MouseUp | MouseOut | TouchStart | TouchEnd.

Definition handler (k : NoteButton) (g : Gesture) : M unit :=
  match g with
  | MouseDown | TouchStart => start k
  | MouseUp | MouseOut | TouchEnd => stop k
  end.

(** *** Events delivered by the audio clock *)

Definition runCallback (cb : Callback) : M unit :=
  match cb with
  | StartSource n => sourceStart n
  | StopSourceRef r => stopSourceRef r
  end.

(** A node's "ended" event can be dispatched once, after the node was
    started; a looping node only ends once it has been stopped. *)
Definition canEnd (w : World) (n : nat) : bool :=
  match sources w !! n with
  | Some s => src_started s && negb (src_ended s) && (negb (src_loop s) || src_stopped s)
  | None => false
  end.

(** Dispatch of the "ended" event of node [n]: every registered callback
    runs; an exception thrown by one is reported to the console and does not
    reach the others.  (No node of this program has both an event listener
    and an [onended] handler, so their relative order is immaterial.) *)
Definition dispatchEnded (n : nat) (w : World) : World :=
  match sources w !! n with
  | Some s =>
      fold_left (fun w' cb => worldOf (runCallback cb w'))
        (src_listeners s ++ option_list (src_onended s))
        (with_sources (<[n := set_ended true s]> (sources w)) w)
  | None => w
  end.

(** Runs a sequence of "ended" events, each of which must be possible when
    its turn comes. *)
Fixpoint dispatchAll (ns : list nat) (w : World) : option World :=
  match ns with
  | [] => Some w
  | n :: rest => if canEnd w n then dispatchAll rest (dispatchEnded n w) else None
  end.

(** ** The application shell (App.tsx, lines 157-206) *)

(** [audioContext.destination] *)
Definition destination : nat := 0%nat.

(** [new AudioContext()]: only the destination node exists.  Whether the
    context starts out suspended is the browser's autoplay policy. *)
Definition newAudioContext (st : ContextState) : World :=
  mkWorld st 1 ∅ {[destination := mkRoute Destination ∅]} ∅ ∅ [].

(** The initial value of the [destinationNodes] state. *)
Definition initialDestinationNodes : list nat := [destination].

Definition createRoute (k : RouteKind) (c : nat -> Call) : M nat :=
  fun w =>
    let n := next_id w in
    Ok n (with_next_id (S n)
            (with_routes (<[n := mkRoute k ∅]> (routes w)) (record (c n) w))).

(** [audioContext.createConvolver()] and [audioContext.createGain()] *)
Definition createConvolver : M nat := createRoute (Convolver None) CCreateConvolver.
Definition createGain : M nat := createRoute (Gain 1) CCreateGain.

Definition updateRoute (n : nat) (f : RouteNode -> RouteNode) : M unit :=
  fun w => match routes w !! n with
           | Some r => Ok tt (with_routes (<[n := f r]> (routes w)) w)
           | None => Throw TypeError w
           end.

Definition setConvolverBuffer (n : nat) (b : AudioBuffer) : M unit :=
  updateRoute n (fun r => mkRoute (Convolver (Some b)) (r_outputs r)).
Definition setGainValue (n : nat) (g : Q) : M unit :=
  updateRoute n (fun r => mkRoute (Gain g) (r_outputs r)).
Definition connectRoute (n d : nat) : M unit :=
  modify (record (CConnect n d)) >>
  updateRoute n (fun r => mkRoute (r_kind r) (r_outputs r ∪ {[d]})).

(** The body of the effect that depends on [convolution.data]; its result is
    the value of the [destinationNodes] state afterwards. *)
Definition bootstrapEffect (convolution : SWRResponse) (destinationNodes : list nat)
    : M (list nat) :=
  match data convolution with
  | Some buffer =>
      let! convolver := createConvolver in
      setConvolverBuffer convolver buffer >>
      connectRoute convolver destination >>
      let! dryGainNode := createGain in
      setGainValue dryGainNode (8 # 10) >>
      connectRoute dryGainNode destination >>
      let! wetGainNode := createGain in
      setGainValue wetGainNode (2 # 10) >>
      connectRoute wetGainNode convolver >>
      ret [dryGainNode; wetGainNode]
  | None => ret destinationNodes
  end.

(** What [App] renders. *)
Inductive View : Type :=
| Message (text : string)
| KeyGrid (title : string) (rows : list (list NoteButtonProps.t)).

Definition App (destinationNodes : list nat)
    (head loop tail convolution : SWRResponse) : View :=
  match data head, data loop, data tail with
  | Some h, Some l, Some t =>
      KeyGrid "hetkinen!!!"
        (map (fun octave =>
                map (fun tone =>
                       {| NoteButtonProps.tone := tone;
                          NoteButtonProps.octave := octave;
                          NoteButtonProps.destinationNodes := destinationNodes;
                          NoteButtonProps.head := h;
                          NoteButtonProps.loop := l;
                          NoteButtonProps.tail := t |})
                    [0; 2; 4; 5; 7; 9; 11])
           [2; 1; 0; -1; -2])
  | _, _, _ => Message "Loading samples..."
  end.

(** [App] on the four assets as [useSampleData] loads them. *)
Definition renderApp (destinationNodes : list nat) (headA loopA tailA convA : Asset)
    : View :=
  App destinationNodes (useSampleData headWav headA) (useSampleData loopWav loopA)
    (useSampleData tailWav tailA) (useSampleData convolutionWav convA).

(** ** Observations on a world *)

(** A source node is live when it is connected to the graph. *)
Definition live (s : SourceNode) : Prop := src_outputs s ≠ ∅.

#[global] Instance live_dec s : Decision (live s).
Proof. unfold live. apply _. Defined.

(** A source node sounds while it plays and is connected. *)
Definition playing (s : SourceNode) : bool :=
  src_started s && negb (src_stopped s) && negb (src_ended s).

Definition audible (s : SourceNode) : Prop := playing s = true /\ live s.

#[global] Instance audible_dec s : Decision (audible s).
Proof. unfold audible. apply _. Defined.

(** The live source nodes of a world. *)
Definition liveSources (w : World) : gmap nat SourceNode :=
  filter (fun p => live p.2) (sources w).

Definition audibleSources (w : World) : gmap nat SourceNode :=
  filter (fun p => audible p.2) (sources w).

(** The three node handles of a key. *)
Definition handles (k : NoteButton) (w : World) : option nat * option nat * option nat :=
  (refs w !! headSourceRef k, refs w !! loopSourceRef k, refs w !! tailSourceRef k).

(** The IDLE state of a key: all three handles hold [null]. *)
Definition idle (k : NoteButton) (w : World) : Prop :=
  handles k w = (None, None, None).

(** Everything but the log of calls. *)
Definition voiceState (w : World)
    : ContextState * nat * gmap nat SourceNode * gmap nat RouteNode
      * gmap nat nat * gmap nat string :=
  (ctx_state w, next_id w, sources w, routes w, refs w, buttons w).

(** The refs of a component are three distinct objects. *)
Definition distinctRefs (k : NoteButton) : Prop :=
  headSourceRef k ≠ loopSourceRef k /\
  headSourceRef k ≠ tailSourceRef k /\
  loopSourceRef k ≠ tailSourceRef k.

(** Well-formed worlds: node ids are handed out in increasing order, a ref
    holds a source node of the context, and the destination node is there. *)
Record wf (w : World) : Prop := {
  wf_sources : forall n, is_Some (sources w !! n) -> (n < next_id w)%nat;
  wf_routes : forall n, is_Some (routes w !! n) -> (n < next_id w)%nat;
  wf_refs : forall r n, refs w !! r = Some n -> is_Some (sources w !! n);
  wf_destination : routes w !! destination = Some (mkRoute Destination ∅);
}.

(** What can happen to a running application. *)
Inductive Step : World -> World -> Prop :=
| StepMount (r : nat) (w : World) :
    Step w (with_buttons (<[r := ""%string]> (buttons w)) w)
| StepGesture (k : NoteButton) (g : Gesture) (w : World) :
    Step w (worldOf (handler k g w))
| StepEnded (n : nat) (w : World) :
    canEnd w n = true -> Step w (dispatchEnded n w)
| StepBootstrap (convolution : SWRResponse) (ds : list nat) (w : World) :
    Step w (worldOf (bootstrapEffect convolution ds w))
| StepResumed (w : World) :
    CResume ∈ calls w -> Step w (with_state Running w).

Inductive reachable : World -> Prop :=
| ReachInit (st : ContextState) : reachable (newAudioContext st)
| ReachStep (w w' : World) : reachable w -> Step w w' -> reachable w'.

(** *** Closed forms of the voice operations *)

Definition freshSource (b : AudioBuffer) (lp : bool) (p : number) (ds : list nat)
    : SourceNode :=
  mkSource (Some b) lp p (list_to_set ds) false false false [] None.

Definition resumeCalls (w : World) : list Call :=
  match ctx_state w with
  | Suspended => [CResume]
  | Running => []
  end.

Definition pressed (r : nat) (t : string) (b : gmap nat string) : gmap nat string :=
  match b !! r with
  | Some _ => <[r := t]> b
  | None => b
  end.

Definition afterStart (k : NoteButton) (w : World) : World :=
  let p := props k in
  let ds := NoteButtonProps.destinationNodes p in
  let h := next_id w in
  let l := S h in
  let t := S l in
  let rate := pitchRatio (note k) in
  mkWorld (ctx_state w) (S t)
    (<[t := freshSource (NoteButtonProps.tail p) false rate ds]>
       (<[l := freshSource (NoteButtonProps.loop p) true rate ds]>
          (<[h := set_listeners [StartSource l]
                    (set_started true (freshSource (NoteButtonProps.head p) false rate ds))]>
             (sources w))))
    (routes w)
    (<[tailSourceRef k := t]> (<[loopSourceRef k := l]> (<[headSourceRef k := h]> (refs w))))
    (pressed (buttonRef k) "scale(0.8)" (buttons w))
    (calls w ++ resumeCalls w
       ++ CCreateBufferSource h :: map (CConnect h) ds ++ [CStart h]
       ++ CCreateBufferSource l :: map (CConnect l) ds
       ++ CCreateBufferSource t :: map (CConnect t) ds).

(** A node after [stopSourceRef]: stopped if it had been started, and
    disconnected. *)
Definition released (s : SourceNode) : SourceNode :=
  set_outputs ∅ (if src_started s then set_stopped true s else s).

Definition afterStopSourceRef (r : nat) (w : World) : World :=
  match refs w !! r with
  | Some n =>
      match sources w !! n with
      | Some s =>
          mkWorld (ctx_state w) (next_id w) (<[n := released s]> (sources w)) (routes w)
            (delete r (refs w)) (buttons w) (calls w ++ [CStop n; CDisconnect n])
      | None => w
      end
  | None => w
  end.

Definition armTail (r : nat) (w : World) : World :=
  match refs w !! r with
  | Some t =>
      match sources w !! t with
      | Some s =>
          mkWorld (ctx_state w) (next_id w)
            (<[t := set_onended (Some (StopSourceRef r)) (set_started true s)]> (sources w))
            (routes w) (refs w) (buttons w) (calls w ++ [CStart t])
      | None => w
      end
  | None => w
  end.

Definition afterStop (k : NoteButton) (w : World) : World :=
  armTail (tailSourceRef k)
    (afterStopSourceRef (loopSourceRef k)
       (afterStopSourceRef (headSourceRef k)
          (with_buttons (pressed (buttonRef k) "scale(1)" (buttons w)) w))).

(** The world after the reverb graph is built for impulse response [ir]:
    the convolver, the dry gain and the wet gain take the next three ids. *)
Definition afterBootstrap (ir : AudioBuffer) (w : World) : World :=
  let c := next_id w in
  let dry := S c in
  let wet := S dry in
  mkWorld (ctx_state w) (S wet) (sources w)
    (<[wet := mkRoute (Gain (2 # 10)) {[c]}]>
       (<[dry := mkRoute (Gain (8 # 10)) {[destination]}]>
          (<[c := mkRoute (Convolver (Some ir)) {[destination]}]> (routes w))))
    (refs w) (buttons w)
    (calls w ++ [CCreateConvolver c; CConnect c destination;
                 CCreateGain dry; CConnect dry destination;
                 CCreateGain wet; CConnect wet c]).

(** *** Routing *)

(** The number of signal paths from routing node [n] to the output. *)
Fixpoint pathsToOutput (fuel : nat) (w : World) (n : nat) : nat :=
  match fuel with
  | O => O
  | S fuel' =>
      match routes w !! n with
      | Some r =>
          match r_kind r with
          | Destination => 1%nat
          | _ => foldr (fun d acc => (pathsToOutput fuel' w d + acc)%nat) O
                   (elements (r_outputs r))
          end
      | None => O
      end
  end.

Definition gainOf (w : World) (n : nat) : Q :=
  match routes w !! n with
  | Some (mkRoute (Gain g) _) => g
  | _ => 0
  end.

(** A key of the middle row, mounted in a fresh application. *)
Definition exampleKey : NoteButton :=
  {| props := {| NoteButtonProps.tone := 0; NoteButtonProps.octave := 0;
                 NoteButtonProps.destinationNodes := [destination];
                 NoteButtonProps.head := Decoded headWav;
                 NoteButtonProps.loop := Decoded loopWav;
                 NoteButtonProps.tail := Decoded tailWav |};
     headSourceRef := 0; loopSourceRef := 1; tailSourceRef := 2; buttonRef := 3 |}.

Definition exampleWorld : World :=
  with_buttons {[ 3%nat := ""%string ]} (newAudioContext Suspended).

(** The example key held down: its voice is in the attack stage. *)
Definition pressedWorld : World := worldOf (start exampleKey exampleWorld).

Arguments with_state _ _ /.
Arguments with_next_id _ _ /.
Arguments with_sources _ _ /.
Arguments with_routes _ _ /.
Arguments with_refs _ _ /.
Arguments with_buttons _ _ /.
Arguments with_calls _ _ /.
Arguments record _ _ /.
Arguments createSourceNode : simpl never.
Arguments stopSourceRef : simpl never.
Arguments start : simpl never.
Arguments stop : simpl never.

(** ** Further observations *)

(** No two refs hold the same node. *)
Definition refsInjective (w : World) : Prop :=
  forall r r' n, refs w !! r = Some n -> refs w !! r' = Some n -> r = r'.

(** No ref holds node [n]. *)
Definition unheld (w : World) (n : nat) : Prop :=
  forall r, refs w !! r ≠ Some n.

(** The number of signal paths from source node [n] to the output. *)
Definition sourcePaths (fuel : nat) (w : World) (n : nat) : nat :=
  match sources w !! n with
  | Some s => sum_list (pathsToOutput fuel w <$> elements (src_outputs s))
  | None => O
  end.

(** The keys of a rendered view, row by row. *)
Definition viewKeys (v : View) : list NoteButtonProps.t :=
  match v with
  | KeyGrid _ rows => concat rows
  | Message _ => []
  end.

(** The note a [NoteButton] computes from its props (line 87) and the text
    it shows (line 152). *)
Definition noteOf (p : NoteButtonProps.t) : Z :=
  60 + NoteButtonProps.octave p * 12 + NoteButtonProps.tone p.

Definition label (p : NoteButtonProps.t) : string := midiNoteToName (noteOf p).

(** The example key pressed, released and pressed again. *)
Definition retriggeredWorld : World :=
  worldOf (start exampleKey (worldOf (stop exampleKey pressedWorld))).

(** The example key pressed twice, after the first head has completed. *)
Definition doublePressedWorld : World :=
  dispatchEnded 1 (worldOf (start exampleKey pressedWorld)).

(** The example key as [App] renders it once the reverb graph has been built
    in the example world: its destination set is the dry and wet gain. *)
Definition reverbKey : NoteButton :=
  {| props := {| NoteButtonProps.tone := 0; NoteButtonProps.octave := 0;
                 NoteButtonProps.destinationNodes := [2%nat; 3%nat];
                 NoteButtonProps.head := Decoded headWav;
                 NoteButtonProps.loop := Decoded loopWav;
                 NoteButtonProps.tail := Decoded tailWav |};
     headSourceRef := 0; loopSourceRef := 1; tailSourceRef := 2; buttonRef := 3 |}.

(** The character [#] of the sharp pitch-class names. *)
Definition sharp : Ascii.ascii :=
  Ascii.Ascii true true false false false true false false.

(** * Properties *)

(** ** Pitch and naming *)

Section Naming.

Lemma index_names_nonneg (i : Z) :
  0 <= i < 12 -> JS.index names i = Some (nth (Z.to_nat i) names ""%string).
Proof.
  intros [Hlo Hhi]. unfold JS.index.
  destruct (Z.ltb_spec i 0) as [Hneg | _]; [lia |].
  apply nth_error_nth'. cbn. lia.
Qed.

Lemma index_names_negative (i : Z) : i < 0 -> JS.index names i = None.
Proof.
  intros Hneg. unfold JS.index.
  destruct (Z.ltb_spec i 0) as [_ | Hge]; [reflexivity | lia].
Qed.

Lemma remainder_agrees (n : Z) :
  0 <= n \/ n mod 12 = 0 -> JS.remainder n 12 = n mod 12.
Proof.
  unfold JS.remainder. intros [Hpos | Hdiv].
  - apply Z.rem_mod_nonneg; lia.
  - rewrite Hdiv. apply Z.rem_mod_eq_0; lia.
Qed.

(** The three names the specification lists. *)
Example midiNoteToName_60 : midiNoteToName 60 = "C4"%string.
Proof. reflexivity. Qed.
Example midiNoteToName_69 : midiNoteToName 69 = "A4"%string.
Proof. reflexivity. Qed.
Example midiNoteToName_61 : midiNoteToName 61 = "C#4"%string.
Proof. reflexivity. Qed.

(** C5, as stated, fails: at [-1] the code prints ["undefined-2"], where
    cycling the twelve names gives ["B-2"]. *)
Lemma midiNoteToName_minus_one :
  midiNoteToName (-1) = "undefined-2"%string /\
  displayName_spec (-1) = "B-2"%string /\
  midiNoteToName (-1) <> displayName_spec (-1).
Proof.
  split; [reflexivity | split; [reflexivity |]].
  intros H. vm_compute in H. discriminate H.
Qed.

(** C5, amended: for every safe integer [n] (below 2^53 in absolute value):
    if [n >= 0], or [n] is a multiple of twelve, [midiNoteToName n] is the
    pitch-class name at index [n mod 12] of the twelve-name cycle followed by
    the octave [floor(n/12) - 1]; for the other negative [n] the remainder
    [n % 12] is negative, the lookup yields [undefined], and the label is the
    word "undefined" followed by the octave [floor(n/12) - 1]. *)
Theorem midiNoteToName_spec (n : Z) :
  JS.safeInteger n ->
  (0 <= n \/ n mod 12 = 0 -> midiNoteToName n = displayName_spec n) /\
  (n < 0 -> n mod 12 <> 0 ->
   midiNoteToName n = ("undefined" ++ JS.numberToString (n / 12 - 1))%string).
Proof.
  intros Hsafe. split.
  - intros Hn. unfold midiNoteToName, displayName_spec, JS.floorDiv.
    rewrite (remainder_agrees n Hn).
    rewrite index_names_nonneg by (apply Z.mod_pos_bound; lia).
    reflexivity.
  - intros Hneg Hmod. unfold midiNoteToName.
    rewrite index_names_negative; [reflexivity |].
    unfold JS.remainder.
    pose proof (Z.rem_nonpos n 12 ltac:(lia) ltac:(lia)) as Hb.
    assert (Z.rem n 12 <> 0) by (rewrite Z.rem_mod_eq_0; lia).
    lia.
Qed.

Lemma midiNoteToName_spec_witness :
  JS.safeInteger 61 /\ midiNoteToName 61 = displayName_spec 61 /\
  JS.safeInteger (-1) /\ midiNoteToName (-1) = "undefined-2"%string.
Proof.
  assert (H61 : JS.safeInteger 61) by (unfold JS.safeInteger; lia).
  assert (Hm1 : JS.safeInteger (-1)) by (unfold JS.safeInteger; lia).
  split; [exact H61 |].
  split; [apply (proj1 (midiNoteToName_spec 61 H61)); left; lia |].
  split; [exact Hm1 |].
  apply (proj2 (midiNoteToName_spec (-1) Hm1)); [lia | discriminate].
Defined.

End Naming.

Section Pitch.

Local Open Scope R_scope.

Lemma midiNoteToPitch_real_pos (x : number) : 0 < realValue (midiNoteToPitch x).
Proof.
  cbn. apply Rmult_lt_0_compat; [lra |]. unfold Rpower. apply exp_pos.
Qed.

(** With exact real arithmetic in place of IEEE doubles, raising a note by
    an octave doubles the playback rate.  (The doubles the browser computes
    go through [Math.pow], whose rounding the language does not fix; this
    lemma says nothing about them.) *)
Lemma pitchRatio_octave_real (n : Z) :
  realValue (pitchRatio (n + 12)) = 2 * realValue (pitchRatio n).
Proof.
  pose proof (midiNoteToPitch_real_pos (NInt 60)) as H60.
  unfold pitchRatio. cbn [realValue midiNoteToPitch] in *.
  rewrite plus_IZR.
  replace ((IZR n + 12 - 69) / 12) with ((IZR n - 69) / 12 + 1) by field.
  rewrite Rpower_plus, Rpower_1 by lra.
  field. lra.
Qed.

End Pitch.

(** ** Loading and the application shell *)

Section Shell.

Lemma useSampleData_data (src : string) (a : Asset) :
  data (useSampleData src a) = if decide (a = loaded) then Some (Decoded src) else None.
Proof. destruct a as [| msg | [] []]; reflexivity. Qed.

Lemma useSampleData_error (src : string) (a : Asset) :
  is_Some (error (useSampleData src a)) <->
  a <> AssetPending /\ a <> loaded.
Proof.
  unfold loaded.
  destruct a as [| msg | [] []]; cbn; split; intros H;
    try (destruct H as [H1 H2]; congruence);
    try (split; discriminate);
    try (eexists; reflexivity);
    try (destruct H as [x Hx]; discriminate Hx).
Qed.

(** C4, as stated, fails twice: with the three voice samples loaded and the
    impulse response still pending the key grid is rendered, not the
    loading text; and with an asset that failed for good the loading text
    stays up, where the claim wants an error display. *)
Lemma App_ignores_impulse_response_and_errors :
  (exists title rows,
     renderApp initialDestinationNodes loaded loaded loaded AssetPending
     = KeyGrid title rows) /\
  is_Some (error (useSampleData headWav (AssetResponse false false))) /\
  renderApp initialDestinationNodes (AssetResponse false false) loaded loaded loaded
  = Message "Loading samples...".
Proof.
  split; [| split].
  - eexists _, _. reflexivity.
  - cbn. eauto.
  - reflexivity.
Qed.

(** C4, amended: [App] renders the text "Loading samples..." exactly as
    long as one of the head, loop and tail buffers has no data, whatever
    the state of the impulse response and whether or not a load failed;
    once the three have data it renders the grid of 5 x 7 keys. *)
Theorem App_loading_iff (ds : list nat) (headA loopA tailA convA : Asset) :
  (renderApp ds headA loopA tailA convA = Message "Loading samples..."
   <-> ~ (headA = loaded /\ loopA = loaded /\ tailA = loaded)) /\
  (headA = loaded /\ loopA = loaded /\ tailA = loaded ->
   exists rows,
     renderApp ds headA loopA tailA convA = KeyGrid "hetkinen!!!" rows /\
     length rows = 5%nat /\ Forall (fun row => length row = 7%nat) rows).
Proof.
  unfold renderApp, App. rewrite !useSampleData_data.
  split.
  - repeat case_decide; split; intros Hr; try reflexivity; try discriminate; tauto.
  - intros (-> & -> & ->). cbn. eexists. split; [reflexivity |].
    split; [reflexivity |]. repeat constructor.
Qed.

End Shell.

(** ** The voice controller *)

Ltac maps :=
  repeat first
    [ rewrite lookup_insert_eq
    | rewrite lookup_insert_ne by (done || lia)
    | rewrite lookup_delete_eq
    | rewrite lookup_delete_ne by (done || lia)
    | rewrite insert_insert_eq
    | progress cbn
    | progress unfold bind, modify, ret, tryCatch, updateSource, sourceStart, sourceStop,
        connect, disconnect, addEndedListener, assignOnended, current, setCurrent,
        setButtonTransform, record ].

Section ClosedForms.

Lemma set_outputs_id s : set_outputs (src_outputs s) s = s.
Proof. by destruct s. Qed.

Lemma set_started_id s : src_started s = true -> set_started true s = s.
Proof. destruct s; cbn; intros ->; reflexivity. Qed.

Lemma connectAll_eq ds : forall n w s,
  sources w !! n = Some s ->
  connectAll n ds w =
    Ok tt (with_calls (calls w ++ map (CConnect n) ds)
             (with_sources
                (<[n := set_outputs (src_outputs s ∪ list_to_set ds) s]> (sources w)) w)).
Proof.
  induction ds as [|d ds IH]; intros n w s Hs.
  - cbn. rewrite app_nil_r, (right_id_L ∅ (∪)), set_outputs_id, insert_id by done.
    by destruct w.
  - cbn. unfold bind, connect, bind, modify, updateSource. cbn. rewrite Hs.
    erewrite IH by (cbn; apply lookup_insert_eq).
    cbn. rewrite insert_insert_eq. unfold with_calls, with_sources, set_outputs. cbn.
    rewrite <- app_assoc. cbn. by rewrite (assoc_L (∪)).
Qed.

Lemma createSourceNode_eq b p ds lp w :
  createSourceNode b p ds lp w =
    Ok (next_id w)
      (mkWorld (ctx_state w) (S (next_id w))
         (<[next_id w := freshSource b lp p ds]> (sources w))
         (routes w) (refs w) (buttons w)
         (calls w ++ CCreateBufferSource (next_id w) :: map (CConnect (next_id w)) ds)).
Proof.
  unfold createSourceNode, bind, createBufferSource, updateSource. cbn.
  repeat (rewrite !lookup_insert_eq; cbn).
  erewrite connectAll_eq by (cbn; apply lookup_insert_eq).
  cbn. rewrite !insert_insert_eq. unfold with_calls, with_sources, ret, freshSource. cbn.
  rewrite <- app_assoc. cbn. by rewrite (left_id_L ∅ (∪)).
Qed.

(** [start] never throws, and its effect has a closed form. *)
Lemma start_eq k w : start k w = Ok tt (afterStart k w).
Proof.
  unfold start, bind at 1.
  assert (Hres : (match ctx_state w with Running => Ok tt w | Suspended => resume w end)
          = Ok tt (with_calls (calls w ++ resumeCalls w) w)).
  { unfold resumeCalls, resume, modify, record. destruct w as [[] ? ? ? ? ? ?]; cbn;
      rewrite ?app_nil_r; done. }
  rewrite Hres. clear Hres.
  unfold bind at 1. rewrite createSourceNode_eq. maps.
  rewrite createSourceNode_eq. maps. rewrite createSourceNode_eq. maps.
  unfold afterStart, pressed, pitchRatio.
  rewrite (insert_insert_ne _ (next_id w) (S (S (next_id w)))) by lia.
  rewrite (insert_insert_ne _ (next_id w) (S (next_id w))) by lia.
  rewrite insert_insert_eq. rewrite <- !app_assoc. cbn.
  destruct (buttons w !! buttonRef k); reflexivity.
Qed.

Lemma stopSourceRef_null r w : refs w !! r = None -> stopSourceRef r w = Ok tt w.
Proof.
  intros Hr. unfold stopSourceRef. maps. rewrite Hr. maps.
  rewrite delete_id by done. by destruct w.
Qed.

Lemma stopSourceRef_eq r w :
  (forall n, refs w !! r = Some n -> is_Some (sources w !! n)) ->
  stopSourceRef r w = Ok tt (afterStopSourceRef r w).
Proof.
  intros Hok. unfold afterStopSourceRef.
  destruct (refs w !! r) as [n|] eqn:Hr; [| by apply stopSourceRef_null].
  destruct (Hok n eq_refl) as [s Hs]. rewrite Hs.
  unfold stopSourceRef. maps. rewrite Hr. maps. rewrite Hs.
  unfold released. destruct (src_started s); maps; rewrite ?Hs; maps;
    rewrite <- ?app_assoc; reflexivity.
Qed.

Lemma setButtonTransform_eq r t w :
  setButtonTransform r t w = Ok tt (with_buttons (pressed r t (buttons w)) w).
Proof.
  unfold setButtonTransform, modify, pressed.
  destruct (buttons w !! r); [done | by destruct w].
Qed.

End ClosedForms.

Section WellFormed.

Lemma wf_newAudioContext st : wf (newAudioContext st).
Proof.
  constructor; cbn.
  - intros n [s Hs]. by rewrite lookup_empty in Hs.
  - intros n [r Hr]. rewrite lookup_insert in Hr.
    case_decide; [subst; unfold destination; lia | by rewrite lookup_empty in Hr].
  - intros r n H. by rewrite lookup_empty in H.
  - reflexivity.
Qed.

(** Worlds that differ in things [wf] does not look at. *)
Lemma wf_same w w' :
  wf w -> next_id w' = next_id w -> routes w' = routes w ->
  (forall n, is_Some (sources w' !! n) <-> is_Some (sources w !! n)) ->
  (forall r n, refs w' !! r = Some n -> refs w !! r = Some n) ->
  wf w'.
Proof.
  intros [Hs Hr Hrefs Hd] Hn Hro Hsrc Href. constructor.
  - intros n H. rewrite Hn. apply Hs, Hsrc, H.
  - intros n H. rewrite Hn. apply Hr. by rewrite <- Hro.
  - intros r n H. apply Hsrc. eapply Hrefs, Href, H.
  - by rewrite Hro.
Qed.

Lemma is_Some_insert_present {A} (m : gmap nat A) n x a :
  is_Some (m !! n) -> (is_Some (<[n := x]> m !! a) <-> is_Some (m !! a)).
Proof.
  intros Hn. rewrite lookup_insert. case_decide; subst; [| done].
  split; [done | by eexists].
Qed.

Lemma wf_afterStopSourceRef r w : wf w -> wf (afterStopSourceRef r w).
Proof.
  intros Hwf. unfold afterStopSourceRef.
  destruct (refs w !! r) as [n|] eqn:Hr; [| done].
  destruct (sources w !! n) as [s|] eqn:Hs; [| done].
  apply (wf_same w); cbn; try done.
  - intros a. apply is_Some_insert_present. by rewrite Hs.
  - intros r' n' H. by apply lookup_delete_Some in H as [_ H].
Qed.

Lemma wf_armTail r w : wf w -> wf (armTail r w).
Proof.
  intros Hwf. unfold armTail.
  destruct (refs w !! r) as [n|] eqn:Hr; [| done].
  destruct (sources w !! n) as [s|] eqn:Hs; [| done].
  apply (wf_same w); cbn; try done.
  intros a. apply is_Some_insert_present. by rewrite Hs.
Qed.

Lemma wf_with_buttons b w : wf w -> wf (with_buttons b w).
Proof. intros Hwf. by apply (wf_same w). Qed.

Lemma wf_afterStop k w : wf w -> wf (afterStop k w).
Proof.
  intros Hwf. unfold afterStop.
  by apply wf_armTail, wf_afterStopSourceRef, wf_afterStopSourceRef, wf_with_buttons.
Qed.

Lemma wf_afterStart k w : wf w -> wf (afterStart k w).
Proof.
  intros [Hs Hr Hrefs Hd]. unfold afterStart. constructor; cbn.
  - intros n H. rewrite !lookup_insert in H.
    repeat case_decide; subst; try lia. apply Hs in H. lia.
  - intros n H. apply Hr in H. lia.
  - intros r n H. rewrite !lookup_insert in H. rewrite !lookup_insert.
    repeat case_decide; simplify_eq; try by eexists.
    all: try lia. by eapply Hrefs.
  - done.
Qed.

(** [stop] never throws in a well-formed world, and has a closed form. *)
Lemma stop_eq k w : wf w -> stop k w = Ok tt (afterStop k w).
Proof.
  intros Hwf. unfold stop, afterStop.
  set (w1 := with_buttons (pressed (buttonRef k) "scale(1)" (buttons w)) w).
  assert (H1 : wf w1) by by apply wf_with_buttons.
  unfold bind at 1. rewrite setButtonTransform_eq. fold w1.
  unfold bind at 1. rewrite stopSourceRef_eq by (intros n; apply (wf_refs _ H1)).
  pose proof (wf_afterStopSourceRef (headSourceRef k) _ H1) as H2.
  unfold bind at 1. rewrite stopSourceRef_eq by (intros n; apply (wf_refs _ H2)).
  pose proof (wf_afterStopSourceRef (loopSourceRef k) _ H2) as H3.
  set (w3 := afterStopSourceRef (loopSourceRef k) _) in *.
  unfold armTail. maps.
  destruct (refs w3 !! tailSourceRef k) as [t|] eqn:Ht; [| done].
  destruct (wf_refs _ H3 _ _ Ht) as [s Hs]. maps. rewrite Hs.
  destruct (src_started s) eqn:Hst; maps.
  - rewrite Hs, set_started_id by done. reflexivity.
  - reflexivity.
Qed.

End WellFormed.

Section Invariant.

Lemma bootstrapEffect_eq conv ir ds w :
  data conv = Some ir ->
  bootstrapEffect conv ds w
  = Ok [S (next_id w); S (S (next_id w))] (afterBootstrap ir w).
Proof.
  intros Hd. unfold bootstrapEffect. rewrite Hd.
  unfold createConvolver, createGain, createRoute, setConvolverBuffer, setGainValue,
    connectRoute, updateRoute, afterBootstrap.
  maps. rewrite !(left_id_L ∅ (∪)), <- !app_assoc. reflexivity.
Qed.

Lemma bootstrapEffect_pending conv ds w :
  data conv = None -> bootstrapEffect conv ds w = Ok ds w.
Proof. intros Hd. unfold bootstrapEffect. by rewrite Hd. Qed.

Lemma wf_afterBootstrap ir w : wf w -> wf (afterBootstrap ir w).
Proof.
  intros [Hs Hr Hrefs Hd]. unfold afterBootstrap. constructor; cbn.
  - intros n H. apply Hs in H. lia.
  - intros n H. rewrite !lookup_insert in H.
    repeat case_decide; subst; try lia. apply Hr in H. lia.
  - done.
  - assert (destination < next_id w)%nat by (apply Hr; by rewrite Hd).
    by rewrite !lookup_insert_ne by lia.
Qed.

Lemma wf_sourceStart n w : wf w -> wf (worldOf (sourceStart n w)).
Proof.
  intros Hwf. unfold sourceStart. maps.
  destruct (sources w !! n) as [s|] eqn:Hs; [destruct (src_started s) |]; cbn.
  1,3: by apply (wf_same w).
  apply (wf_same w); cbn; try done.
  intros a. apply is_Some_insert_present. by rewrite Hs.
Qed.

Lemma wf_runCallback cb w : wf w -> wf (worldOf (runCallback cb w)).
Proof.
  intros Hwf. destruct cb as [n | r]; cbn.
  - by apply wf_sourceStart.
  - rewrite stopSourceRef_eq by (intros n; apply (wf_refs _ Hwf)).
    by apply wf_afterStopSourceRef.
Qed.

Lemma wf_runCallbacks cbs : forall w,
  wf w -> wf (fold_left (fun w' cb => worldOf (runCallback cb w')) cbs w).
Proof.
  induction cbs as [| cb cbs IH]; intros w Hwf; cbn; [done |].
  by apply IH, wf_runCallback.
Qed.

Lemma wf_dispatchEnded n w : wf w -> wf (dispatchEnded n w).
Proof.
  intros Hwf. unfold dispatchEnded.
  destruct (sources w !! n) as [s|] eqn:Hs; [| done].
  apply wf_runCallbacks. apply (wf_same w); cbn; try done.
  intros a. apply is_Some_insert_present. by rewrite Hs.
Qed.

Lemma wf_handler k g w : wf w -> wf (worldOf (handler k g w)).
Proof.
  intros Hwf. destruct g; cbn; rewrite ?start_eq, ?stop_eq by done; cbn;
    by (apply wf_afterStart || apply wf_afterStop).
Qed.

Lemma wf_step w w' : wf w -> Step w w' -> wf w'.
Proof.
  intros Hwf Hstep. revert Hwf.
  destruct Hstep as [r w | k g w | n w Hn | conv ds w | w Hres]; intros Hwf.
  - by apply wf_with_buttons.
  - by apply wf_handler.
  - by apply wf_dispatchEnded.
  - destruct (data conv) as [ir|] eqn:Hd.
    + rewrite (bootstrapEffect_eq conv ir) by done. by apply wf_afterBootstrap.
    + by rewrite bootstrapEffect_pending.
  - by apply (wf_same w).
Qed.

(** Every world the application can get into is well formed. *)
Lemma reachable_wf w : reachable w -> wf w.
Proof.
  induction 1 as [st | w w' _ IH Hstep].
  - apply wf_newAudioContext.
  - by eapply wf_step.
Qed.

End Invariant.

Section Release.

Lemma afterStopSourceRef_null r w : refs w !! r = None -> afterStopSourceRef r w = w.
Proof. intros Hr. unfold afterStopSourceRef. by rewrite Hr. Qed.

Lemma refs_afterStopSourceRef r w :
  wf w -> refs (afterStopSourceRef r w) = delete r (refs w).
Proof.
  intros Hwf. unfold afterStopSourceRef.
  destruct (refs w !! r) as [n|] eqn:Hr; [| by rewrite delete_id].
  destruct (wf_refs _ Hwf _ _ Hr) as [s Hs]. by rewrite Hs.
Qed.

Lemma buttons_afterStopSourceRef r w : buttons (afterStopSourceRef r w) = buttons w.
Proof.
  unfold afterStopSourceRef.
  destruct (refs w !! r) as [n|]; [| done]. by destruct (sources w !! n).
Qed.

Lemma refs_armTail r w : refs (armTail r w) = refs w.
Proof.
  unfold armTail. destruct (refs w !! r) as [n|]; [| done]. by destruct (sources w !! n).
Qed.

Lemma buttons_armTail r w : buttons (armTail r w) = buttons w.
Proof.
  unfold armTail. destruct (refs w !! r) as [n|]; [| done]. by destruct (sources w !! n).
Qed.

Lemma pressed_pressed r t b : pressed r t (pressed r t b) = pressed r t b.
Proof.
  unfold pressed. destruct (b !! r) eqn:Hb.
  - by rewrite lookup_insert_eq, insert_insert_eq.
  - by rewrite Hb.
Qed.

Lemma with_buttons_id w : with_buttons (buttons w) w = w.
Proof. by destruct w. Qed.

Lemma refs_afterStop k w :
  wf w -> refs (afterStop k w) = delete (loopSourceRef k) (delete (headSourceRef k) (refs w)).
Proof.
  intros Hwf. unfold afterStop.
  rewrite refs_armTail, refs_afterStopSourceRef
    by by apply wf_afterStopSourceRef, wf_with_buttons.
  by rewrite refs_afterStopSourceRef by by apply wf_with_buttons.
Qed.

Lemma buttons_afterStop k w :
  buttons (afterStop k w) = pressed (buttonRef k) "scale(1)" (buttons w).
Proof.
  unfold afterStop. by rewrite buttons_armTail, !buttons_afterStopSourceRef.
Qed.

(** Arming an armed tail changes nothing but the log: the second
    [start()] throws and is swallowed, and [onended] receives an equal
    closure. *)
Lemma armTail_armTail r w : voiceState (armTail r (armTail r w)) = voiceState (armTail r w).
Proof.
  destruct (refs w !! r) as [t|] eqn:Hr;
    [destruct (sources w !! t) as [s|] eqn:Hs |].
  - unfold armTail. rewrite Hr, Hs. cbn. rewrite Hr, lookup_insert_eq. cbn.
    unfold voiceState. cbn. by rewrite insert_insert_eq.
  - unfold armTail. rewrite Hr, Hs. by rewrite Hr, Hs.
  - unfold armTail. rewrite Hr. by rewrite Hr.
Qed.

(** A second [stop] right after a first one only re-arms the tail. *)
Lemma afterStop_afterStop k w :
  wf w -> afterStop k (afterStop k w) = armTail (tailSourceRef k) (afterStop k w).
Proof.
  intros Hwf. unfold afterStop at 1.
  rewrite buttons_afterStop, pressed_pressed, <- buttons_afterStop, with_buttons_id.
  rewrite (afterStopSourceRef_null (headSourceRef k)).
  - rewrite afterStopSourceRef_null; [done |].
    rewrite refs_afterStop by done. apply lookup_delete_eq.
  - rewrite refs_afterStop by done.
    rewrite lookup_delete. case_decide; [done | apply lookup_delete_eq].
Qed.

Lemma stop_stop_voiceState k w :
  wf w -> voiceState (afterStop k (afterStop k w)) = voiceState (afterStop k w).
Proof.
  intros Hwf. rewrite afterStop_afterStop by done.
  unfold afterStop. apply armTail_armTail.
Qed.

End Release.

Section StopClaims.

(** C9: for a key in the IDLE state (its three handles hold [null]),
    [stop] returns without an error and leaves the voice state as it was:
    no Web Audio call is made, no node is created or changed, and the
    three handles still hold [null].  (Only the button's transform is
    reset.) *)
Theorem stop_idle_noop (k : NoteButton) (w : World) :
  idle k w ->
  stop k w = Ok tt (with_buttons (pressed (buttonRef k) "scale(1)" (buttons w)) w) /\
  calls (worldOf (stop k w)) = calls w /\
  next_id (worldOf (stop k w)) = next_id w /\
  sources (worldOf (stop k w)) = sources w /\
  routes (worldOf (stop k w)) = routes w /\
  refs (worldOf (stop k w)) = refs w /\
  idle k (worldOf (stop k w)).
Proof.
  unfold idle, handles. intros Hidle.
  assert (Hh : refs w !! headSourceRef k = None) by congruence.
  assert (Hl : refs w !! loopSourceRef k = None) by congruence.
  assert (Ht : refs w !! tailSourceRef k = None) by congruence.
  assert (Heq : stop k w
                = Ok tt (with_buttons (pressed (buttonRef k) "scale(1)" (buttons w)) w)).
  { unfold stop. unfold bind at 1. rewrite setButtonTransform_eq.
    unfold bind at 1. rewrite stopSourceRef_null by done.
    unfold bind at 1. rewrite stopSourceRef_null by done.
    unfold bind, current. cbn. by rewrite Ht. }
  rewrite Heq. cbn. by rewrite Hh, Hl, Ht.
Qed.

Lemma stop_idle_noop_witness :
  idle exampleKey exampleWorld /\
  stop exampleKey exampleWorld
  = Ok tt (with_buttons (pressed (buttonRef exampleKey) "scale(1)" (buttons exampleWorld))
             exampleWorld).
Proof.
  assert (H : idle exampleKey exampleWorld) by reflexivity.
  split; [exact H | exact (proj1 (stop_idle_noop exampleKey exampleWorld H))].
Defined.

(** C10: in every well-formed world (and so in every reachable one) both a
    first and an immediately following second [stop] return, and the
    second leaves the context, the source nodes with their connections,
    the routing nodes, the three handles and the button as the first left
    them; only the log of calls grows. *)
Theorem stop_idempotent (k : NoteButton) (w : World) :
  wf w ->
  returns (stop k w) /\
  returns (stop k (worldOf (stop k w))) /\
  voiceState (worldOf (stop k (worldOf (stop k w)))) = voiceState (worldOf (stop k w)) /\
  handles k (worldOf (stop k (worldOf (stop k w)))) = handles k (worldOf (stop k w)).
Proof.
  intros Hwf. pose proof (wf_afterStop k w Hwf) as Hwf'.
  rewrite (stop_eq k w Hwf). cbn [worldOf].
  rewrite (stop_eq k _ Hwf'). cbn [worldOf returns].
  pose proof (stop_stop_voiceState k w Hwf) as Hvs.
  repeat split; [exact Hvs |].
  unfold handles. unfold voiceState in Hvs.
  by replace (refs (afterStop k (afterStop k w))) with (refs (afterStop k w))
    by congruence.
Qed.

(** C6: in every well-formed world [stop] returns, and so does a second
    [stop] right after it, which leaves every source node as it was.  Both
    failures are real and are swallowed on the way: [stop()] on a node that
    was never started throws [InvalidStateError] while [stopSourceRef] on a
    ref holding that node returns; and after a first [stop] the tail node
    is started, so the second [start()] on it throws [InvalidStateError],
    which [stop] catches. *)
Theorem stop_swallows_playback_errors (k : NoteButton) (w : World) :
  wf w ->
  returns (stop k w) /\
  returns (stop k (worldOf (stop k w))) /\
  sources (worldOf (stop k (worldOf (stop k w)))) = sources (worldOf (stop k w)) /\
  (forall r n s,
     refs w !! r = Some n -> sources w !! n = Some s -> src_started s = false ->
     (exists w', sourceStop n w = Throw InvalidStateError w') /\
     returns (stopSourceRef r w)) /\
  (forall t,
     refs (worldOf (stop k w)) !! tailSourceRef k = Some t ->
     exists s w',
       sources (worldOf (stop k w)) !! t = Some s /\ src_started s = true /\
       sourceStart t (worldOf (stop k w)) = Throw InvalidStateError w').
Proof.
  intros Hwf. pose proof (wf_afterStop k w Hwf) as Hwf'.
  rewrite (stop_eq k w Hwf). cbn [worldOf].
  rewrite (stop_eq k _ Hwf'). cbn [worldOf returns].
  pose proof (stop_stop_voiceState k w Hwf) as Hvs. unfold voiceState in Hvs.
  split; [done |]. split; [done |]. split; [congruence |]. split.
  - intros r n s Hr Hs Hst. split.
    + unfold sourceStop. maps. rewrite Hs, Hst. by eexists.
    + rewrite stopSourceRef_eq by (intros n'; apply (wf_refs _ Hwf)). done.
  - intros t Ht.
    unfold afterStop in *.
    set (w3 := afterStopSourceRef (loopSourceRef k) _) in *.
    assert (Hwf3 : wf w3)
      by by apply wf_afterStopSourceRef, wf_afterStopSourceRef, wf_with_buttons.
    rewrite refs_armTail in Ht.
    destruct (wf_refs _ Hwf3 _ _ Ht) as [s Hs].
    unfold armTail. rewrite Ht, Hs.
    eexists _, _. split; [cbn; apply lookup_insert_eq |]. split; [reflexivity |].
    unfold sourceStart. maps. reflexivity.
Qed.

End StopClaims.

Ltac crunch :=
  repeat first
    [ progress unfold dispatchEnded, afterStart, afterStop, afterStopSourceRef, armTail,
        canEnd, stopSourceRef, runCallback, handles, idle, playing, released
    | progress maps ].

(** Evaluates the operations on worlds innermost first, so that each one
    runs on a world that is already a record of maps. *)
Ltac stage_eval t :=
  let E := fresh "E" in
  eassert (E : t = _) by (crunch; reflexivity);
  rewrite !E; clear E.

Ltac stages :=
  unfold afterStart, afterStop, with_buttons;
  cbn [ctx_state next_id sources routes refs buttons calls];
  repeat match goal with
    | |- context [dispatchEnded ?n (mkWorld ?a ?b ?c ?d ?e ?f ?g)] =>
        stage_eval (dispatchEnded n (mkWorld a b c d e f g))
    | |- context [afterStopSourceRef ?r (mkWorld ?a ?b ?c ?d ?e ?f ?g)] =>
        stage_eval (afterStopSourceRef r (mkWorld a b c d e f g))
    | |- context [armTail ?r (mkWorld ?a ?b ?c ?d ?e ?f ?g)] =>
        stage_eval (armTail r (mkWorld a b c d e f g))
    | |- context [buttons (mkWorld ?a ?b ?c ?d ?e ?f ?g)] =>
        cbn [ctx_state next_id sources routes refs buttons calls]
    end.

Ltac node_facts := repeat (split; [reflexivity |]); reflexivity.

Ltac ref_disequalities H :=
  let Hhl := fresh "Hhl" in
  let Hht := fresh "Hht" in
  let Hlt := fresh "Hlt" in
  destruct H as (Hhl & Hht & Hlt);
  pose proof (not_eq_sym Hhl); pose proof (not_eq_sym Hht); pose proof (not_eq_sym Hlt).

(** The release of a first voice.  After [start] and the completion of the
    head (the loop node then
    plays, looping, connected to the destination nodes), [stop] returns; it
    calls [stop()] and [disconnect()] on the head node and on the loop node
    and [start()] on the tail node, in this order; afterwards head and loop
    are stopped and disconnected, their handles hold [null], and the tail
    node plays with the completion callback [stopSourceRef(tailSourceRef)].
    When the tail completes, that callback stops and disconnects it and the
    key is IDLE: all three handles hold [null]. *)
Lemma release_after_sustain (k : NoteButton) (w : World) :
  wf w -> distinctRefs k ->
  let ds := NoteButtonProps.destinationNodes (props k) in
  let h := next_id w in
  let l := S h in
  let t := S l in
  let w1 := worldOf (start k w) in
  let w2 := dispatchEnded h w1 in
  let w3 := worldOf (stop k w2) in
  let w4 := dispatchEnded t w3 in
  canEnd w1 h = true /\
  (exists s, sources w2 !! l = Some s /\ playing s = true /\ src_loop s = true /\
             src_outputs s = list_to_set ds) /\
  returns (stop k w2) /\
  calls w3 = calls w2 ++ [CStop h; CDisconnect h; CStop l; CDisconnect l; CStart t] /\
  (exists s, sources w3 !! h = Some s /\ src_stopped s = true /\ src_outputs s = ∅) /\
  (exists s, sources w3 !! l = Some s /\ src_stopped s = true /\ src_outputs s = ∅) /\
  (exists s, sources w3 !! t = Some s /\ playing s = true /\
             src_outputs s = list_to_set ds /\
             src_onended s = Some (StopSourceRef (tailSourceRef k))) /\
  handles k w3 = (None, None, Some t) /\
  canEnd w3 t = true /\
  (exists s, sources w4 !! t = Some s /\ src_stopped s = true /\ src_ended s = true /\
             src_outputs s = ∅) /\
  idle k w4.
Proof.
  intros Hwf Hrefs. cbn zeta. ref_disequalities Hrefs.
  rewrite start_eq. cbn [worldOf].
  rewrite stop_eq by by apply wf_dispatchEnded, wf_afterStart.
  cbn [worldOf returns].
  stages.
  split; [crunch; reflexivity |].
  split; [eexists; crunch; node_facts |].
  split; [exact I |].
  split; [crunch; rewrite <- !app_assoc; reflexivity |].
  split; [eexists; crunch; node_facts |].
  split; [eexists; crunch; node_facts |].
  split; [eexists; crunch; node_facts |].
  split; [crunch; reflexivity |].
  split; [crunch; reflexivity |].
  split; [eexists; crunch; node_facts |].
  crunch. reflexivity.
Qed.


Ltac stage_bool :=
  match goal with
  | |- context [canEnd (mkWorld ?a ?b ?c ?d ?e ?f ?g) ?n] =>
      stage_eval (canEnd (mkWorld a b c d e f g) n); cbv iota
  end.

(** The conclusion about a voice whose nodes are [h], [l] and [t]: the key
    is idle, none of the three nodes is connected, and whatever sounds was
    sounding in [w] already. *)
Ltac silent_voice w :=
  split; [crunch; reflexivity |];
  split;
    [ intros n [-> | [-> | ->]]; eexists; crunch; node_facts
    | intros n s; cbn [sources];
      destruct (decide (n = next_id w)) as [-> | ?];
        [| destruct (decide (n = S (next_id w))) as [-> | ?];
           [| destruct (decide (n = S (S (next_id w)))) as [-> | ?]]];
      maps; intros Hn [_ Hlive];
      [ exfalso; apply Hlive; by inversion Hn ..
      | exact Hn ] ].

Lemma wf_exampleWorld : wf exampleWorld.
Proof. apply wf_with_buttons, wf_newAudioContext. Qed.

Lemma distinctRefs_exampleKey : distinctRefs exampleKey.
Proof. repeat split; cbn; lia. Qed.

(** When [stop] follows [start] before the head has completed, then
    however the "ended" events of the voice's nodes are delivered
    afterwards, once the tail has finished the key is IDLE, none of the
    voice's three nodes is connected to the graph, and every source node
    that still sounds was sounding before the [start], unchanged. *)
Lemma stop_during_attack_silences_voice
    (k : NoteButton) (w : World) (evs : list nat) (w' : World) :
  wf w -> distinctRefs k ->
  let h := next_id w in
  let l := S h in
  let t := S l in
  let w2 := worldOf (stop k (worldOf (start k w))) in
  Forall (fun n => n = h \/ n = l \/ n = t) evs ->
  t ∈ evs ->
  dispatchAll evs w2 = Some w' ->
  idle k w' /\
  (forall n, n = h \/ n = l \/ n = t ->
             exists s, sources w' !! n = Some s /\ src_outputs s = ∅) /\
  (forall n s, sources w' !! n = Some s -> audible s -> sources w !! n = Some s).
Proof.
  intros Hwf Hrefs. cbn zeta. ref_disequalities Hrefs.
  rewrite start_eq. cbn [worldOf].
  rewrite stop_eq by by apply wf_afterStart.
  cbn [worldOf]. stages.
  intros Hall Hin. revert w'.
  destruct evs as [| e1 evs1]; [by apply elem_of_nil in Hin |].
  apply Forall_cons in Hall as [He1 Hall]. cbn [dispatchAll].
  destruct He1 as [-> | [-> | ->]]; stage_bool; [| intros ? [=] |].
  - (* the head's event comes first *)
    stages. destruct evs1 as [| e2 evs2].
    + exfalso. apply list_elem_of_singleton in Hin. lia.
    + apply Forall_cons in Hall as [He2 Hall]. cbn [dispatchAll].
      destruct He2 as [-> | [-> | ->]]; stage_bool; [intros ? [=] | intros ? [=] |].
      stages. destruct evs2 as [| e3 evs3].
      * cbn [dispatchAll]. intros w' [= <-]. silent_voice w.
      * apply Forall_cons in Hall as [He3 Hall]. cbn [dispatchAll].
        destruct He3 as [-> | [-> | ->]]; stage_bool; intros ? [=].
  - (* the tail's event comes first *)
    stages. destruct evs1 as [| e2 evs2].
    + cbn [dispatchAll]. intros w' [= <-]. silent_voice w.
    + apply Forall_cons in Hall as [He2 Hall]. cbn [dispatchAll].
      destruct He2 as [-> | [-> | ->]]; stage_bool; [| intros ? [=] | intros ? [=]].
      stages. destruct evs2 as [| e3 evs3].
      * cbn [dispatchAll]. intros w' [= <-]. silent_voice w.
      * apply Forall_cons in Hall as [He3 Hall]. cbn [dispatchAll].
        destruct He3 as [-> | [-> | ->]]; stage_bool; intros ? [=].
Qed.

(** C2, as stated, fails when the key is not IDLE at the [start]: press,
    press, release of the example key, with the second head's callback still
    pending at the release.  The first head then completes and starts the
    first loop node, whose handle the second [start] overwrote; the second
    head's pending callback fires; the tail finishes.  The key is IDLE, and
    the first loop node plays on, connected to the output. *)
Lemma press_press_release_leaves_loop_sounding :
  let w2 := worldOf (stop exampleKey (worldOf (start exampleKey pressedWorld))) in
  (exists s, sources w2 !! 4%nat = Some s /\ src_ended s = false) /\
  exists w',
    dispatchAll [1%nat; 4%nat; 6%nat] w2 = Some w' /\
    idle exampleKey w' /\
    (exists s, sources w' !! 2%nat = Some s /\ src_loop s = true /\ audible s) /\
    size (audibleSources w') = 1%nat.
Proof.
  cbn zeta. split; [eexists; split; [vm_compute; reflexivity | reflexivity] |].
  eexists. split; [vm_compute; reflexivity |].
  split; [vm_compute; reflexivity |].
  split; [| vm_compute; reflexivity].
  eexists. split; [vm_compute; reflexivity |].
  split; [reflexivity |].
  apply (bool_decide_unpack _). vm_compute. reflexivity.
Qed.

(** C2, amended: when [stop] follows [start] before the head's completion
    callback has fired, then however the "ended" events of that voice's three
    nodes are delivered afterwards, once the tail has finished the key is
    IDLE, none of the voice's three nodes is connected to the graph, and
    every source node that still sounds was sounding before the [start],
    unchanged; so if nothing sounded before the [start], nothing sounds.
    (The pending head callback is not a no-op on the node: it starts the loop
    node, which [stop] has disconnected already.  Nodes of an earlier voice
    whose handles the [start] overwrote are not silenced.) *)
Theorem stop_during_attack_leaves_no_audio
    (k : NoteButton) (w : World) (evs : list nat) (w' : World) :
  wf w -> distinctRefs k ->
  let h := next_id w in
  let l := S h in
  let t := S l in
  let w2 := worldOf (stop k (worldOf (start k w))) in
  Forall (fun n => n = h \/ n = l \/ n = t) evs ->
  t ∈ evs ->
  dispatchAll evs w2 = Some w' ->
  idle k w' /\
  (forall n, n = h \/ n = l \/ n = t ->
             exists s, sources w' !! n = Some s /\ src_outputs s = ∅) /\
  (forall n s, sources w' !! n = Some s -> audible s -> sources w !! n = Some s) /\
  (audibleSources w = ∅ -> audibleSources w' = ∅).
Proof.
  intros Hwf Hrefs h l t w2 Hall Hin Hrun.
  destruct (stop_during_attack_silences_voice k w evs w' Hwf Hrefs Hall Hin Hrun)
    as (Hidle & Hout & Hframe).
  split; [exact Hidle |]. split; [exact Hout |]. split; [exact Hframe |].
  intros Hsilent. apply map_empty. intros n.
  destruct (audibleSources w' !! n) as [s|] eqn:E; [| done].
  unfold audibleSources in E. apply map_lookup_filter_Some in E as [E Ha].
  cbn in Ha. pose proof (Hframe n s E Ha) as Hw.
  assert (Hn : audibleSources w !! n = Some s)
    by (unfold audibleSources; apply map_lookup_filter_Some; by split).
  rewrite Hsilent, lookup_empty in Hn. discriminate Hn.
Qed.

Lemma stop_during_attack_leaves_no_audio_witness :
  exists w',
    dispatchAll [1%nat; 3%nat]
      (worldOf (stop exampleKey (worldOf (start exampleKey exampleWorld))))
    = Some w' /\
    idle exampleKey w' /\
    audibleSources w' = ∅.
Proof.
  eexists. split; [vm_compute; reflexivity |].
  assert (Hall : Forall (fun n => n = 1%nat \/ n = 2%nat \/ n = 3%nat) [1%nat; 3%nat]).
  { constructor; [left; reflexivity |].
    constructor; [right; right; reflexivity | constructor]. }
  assert (Hin : 3%nat ∈ [1%nat; 3%nat]) by (apply list_elem_of_In; cbn; tauto).
  destruct (stop_during_attack_leaves_no_audio exampleKey exampleWorld [1%nat; 3%nat] _
              wf_exampleWorld distinctRefs_exampleKey Hall Hin
              ltac:(vm_compute; reflexivity))
    as (Hidle & _ & _ & Hsilent).
  split; [exact Hidle |]. apply Hsilent. reflexivity.
Defined.

(** C1, as stated, fails: after two presses of the example key in a fresh
    application the first voice's head node (node 1) has been neither
    stopped nor disconnected and still sounds, its loop and tail nodes are
    still connected, six source nodes are live, and two of them (the two
    heads) sound at once. *)
Lemma start_start_two_voices_live :
  let w1 := worldOf (start exampleKey exampleWorld) in
  let w2 := worldOf (start exampleKey w1) in
  ~ idle exampleKey w1 /\
  handles exampleKey w1 = (Some 1%nat, Some 2%nat, Some 3%nat) /\
  (exists s, sources w2 !! 1%nat = Some s /\ src_stopped s = false /\ audible s) /\
  (exists s, sources w2 !! 2%nat = Some s /\ live s) /\
  (exists s, sources w2 !! 3%nat = Some s /\ live s) /\
  size (liveSources w2) = 6%nat /\
  size (audibleSources w2) = 2%nat.
Proof.
  cbn zeta. split; [intros H; vm_compute in H; discriminate H |].
  split; [vm_compute; reflexivity |].
  split; [eexists; split; [vm_compute; reflexivity |];
          split; [reflexivity | apply (bool_decide_unpack _); vm_compute; reflexivity] |].
  split; [eexists; split; [vm_compute; reflexivity |];
          apply (bool_decide_unpack _); vm_compute; reflexivity |].
  split; [eexists; split; [vm_compute; reflexivity |];
          apply (bool_decide_unpack _); vm_compute; reflexivity |].
  split; vm_compute; reflexivity.
Qed.

(** C1, amended: [start] stops and disconnects nothing.  Called on a key
    that is not IDLE it leaves every source node that exists exactly as it
    was (the previous voice's head keeps playing, and head, loop and tail
    stay connected to the destination nodes), creates three further nodes
    connected to the destination nodes, and overwrites the three handles
    with them: after two consecutive [start] calls both voices' nodes are
    connected, and the handles refer to the second voice. *)
Theorem start_keeps_previous_voice (k : NoteButton) (w : World) :
  distinctRefs k ->
  let ds := NoteButtonProps.destinationNodes (props k) in
  let h := next_id w in
  let w1 := worldOf (start k w) in
  let w2 := worldOf (start k w1) in
  returns (start k w) /\ returns (start k w1) /\
  handles k w1 = (Some h, Some (S h), Some (S (S h))) /\
  handles k w2 = (Some (3 + h)%nat, Some (4 + h)%nat, Some (5 + h)%nat) /\
  (forall n, (n < 3 + h)%nat -> sources w2 !! n = sources w1 !! n) /\
  (exists s, sources w2 !! h = Some s /\ playing s = true /\
             src_outputs s = list_to_set ds) /\
  (forall i, (i < 6)%nat ->
             exists s, sources w2 !! (i + h)%nat = Some s /\
                       src_outputs s = list_to_set ds).
Proof.
  intros Hrefs. cbn zeta. ref_disequalities Hrefs.
  rewrite !start_eq. cbn [worldOf returns].
  split; [exact I |]. split; [exact I |].
  split; [crunch; reflexivity |].
  split; [crunch; reflexivity |].
  split; [intros n Hn; crunch; reflexivity |].
  split; [eexists; crunch; node_facts |].
  intros i Hi.
  destruct i as [| [| [| [| [| [| i]]]]]]; [.. | lia]; eexists; crunch; node_facts.
Qed.

Lemma start_keeps_previous_voice_witness :
  distinctRefs exampleKey /\
  handles exampleKey (worldOf (start exampleKey (worldOf (start exampleKey exampleWorld))))
  = (Some 4%nat, Some 5%nat, Some 6%nat).
Proof.
  assert (H : distinctRefs exampleKey) by (repeat split; cbn; lia).
  split; [exact H |].
  exact (proj1 (proj2 (proj2 (proj2 (start_keeps_previous_voice exampleKey exampleWorld H))))).
Defined.

Lemma reachable_pressedWorld : reachable pressedWorld.
Proof.
  apply (ReachStep exampleWorld).
  - apply (ReachStep (newAudioContext Suspended)); [apply ReachInit |].
    apply (StepMount 3).
  - apply (StepGesture exampleKey MouseDown).
Qed.

Lemma release_after_sustain_witness :
  wf exampleWorld /\ distinctRefs exampleKey /\
  idle exampleKey
    (dispatchEnded 3
       (worldOf (stop exampleKey
                   (dispatchEnded 1 (worldOf (start exampleKey exampleWorld)))))).
Proof.
  split; [apply wf_exampleWorld |]. split; [apply distinctRefs_exampleKey |].
  pose proof (release_after_sustain exampleKey exampleWorld
                wf_exampleWorld distinctRefs_exampleKey) as H.
  cbn zeta in H. apply H.
Defined.

Lemma stop_idempotent_witness :
  wf pressedWorld /\
  voiceState (worldOf (stop exampleKey (worldOf (stop exampleKey pressedWorld))))
  = voiceState (worldOf (stop exampleKey pressedWorld)).
Proof.
  assert (H : wf pressedWorld) by apply reachable_wf, reachable_pressedWorld.
  split; [exact H |].
  exact (proj1 (proj2 (proj2 (stop_idempotent exampleKey pressedWorld H)))).
Defined.

Lemma stop_swallows_playback_errors_witness :
  wf pressedWorld /\
  returns (stop exampleKey pressedWorld) /\
  returns (stop exampleKey (worldOf (stop exampleKey pressedWorld))).
Proof.
  assert (H : wf pressedWorld) by apply reachable_wf, reachable_pressedWorld.
  split; [exact H |].
  pose proof (stop_swallows_playback_errors exampleKey pressedWorld H) as (H1 & H2 & _).
  split; [exact H1 | exact H2].
Defined.

(** ** The reverb graph *)

(** C7: as long as the impulse response has no data the effect leaves the
    destination set at its initial value, the output node alone.  Once it
    has data, the effect returns a destination set of exactly two nodes: a
    dry gain node of gain 0.8 connected to the output, and a wet gain node of
    gain 0.2 connected to a convolver that holds the impulse response and is
    connected to the output.  One signal path leads from each of the two to
    the output, two in all, and the two gains add up to 1.  Source nodes and
    handles are not touched. *)
Theorem bootstrap_builds_dry_wet_pair
    (w : World) (conv : SWRResponse) (ir : AudioBuffer) (extra : nat) :
  wf w ->
  data conv = Some ir ->
  let c := next_id w in
  let dry := S c in
  let wet := S dry in
  initialDestinationNodes = [destination] /\
  (forall before, data before = None ->
     bootstrapEffect before initialDestinationNodes w = Ok initialDestinationNodes w) /\
  exists w',
    bootstrapEffect conv initialDestinationNodes w = Ok [dry; wet] w' /\
    routes w' !! dry = Some (mkRoute (Gain (8 # 10)) {[destination]}) /\
    routes w' !! wet = Some (mkRoute (Gain (2 # 10)) {[c]}) /\
    routes w' !! c = Some (mkRoute (Convolver (Some ir)) {[destination]}) /\
    routes w' !! destination = Some (mkRoute Destination ∅) /\
    pathsToOutput (3 + extra) w' dry = 1%nat /\
    pathsToOutput (3 + extra) w' wet = 1%nat /\
    (gainOf w' dry + gainOf w' wet == 1)%Q /\
    sources w' = sources w /\ refs w' = refs w.
Proof.
  intros Hwf Hdata. cbn zeta.
  split; [reflexivity |].
  split; [intros before Hbefore; by apply bootstrapEffect_pending |].
  exists (afterBootstrap ir w).
  split; [by apply bootstrapEffect_eq |].
  pose proof (wf_destination _ (wf_afterBootstrap ir w Hwf)) as Hdest.
  assert (Hlt : (destination < next_id w)%nat).
  { apply (wf_routes _ Hwf). rewrite (wf_destination _ Hwf). by eexists. }
  assert (Hdry : routes (afterBootstrap ir w) !! S (next_id w)
                 = Some (mkRoute (Gain (8 # 10)) {[destination]}))
    by (unfold afterBootstrap; cbn [routes]; by maps).
  assert (Hwet : routes (afterBootstrap ir w) !! S (S (next_id w))
                 = Some (mkRoute (Gain (2 # 10)) {[next_id w]}))
    by (unfold afterBootstrap; cbn [routes]; by maps).
  assert (Hconv : routes (afterBootstrap ir w) !! next_id w
                  = Some (mkRoute (Convolver (Some ir)) {[destination]}))
    by (unfold afterBootstrap; cbn [routes]; by maps).
  split; [exact Hdry |]. split; [exact Hwet |]. split; [exact Hconv |].
  split; [exact Hdest |].
  split.
  { cbn [Nat.add pathsToOutput]. rewrite Hdry. cbn [r_kind r_outputs].
    rewrite elements_singleton. cbn [foldr]. rewrite Hdest. reflexivity. }
  split.
  { cbn [Nat.add pathsToOutput]. rewrite Hwet. cbn [r_kind r_outputs].
    rewrite elements_singleton. cbn [foldr]. rewrite Hconv. cbn [r_kind r_outputs].
    rewrite elements_singleton. cbn [foldr].
    rewrite Hdest. reflexivity. }
  split.
  { unfold gainOf. rewrite Hdry, Hwet. reflexivity. }
  split; reflexivity.
Qed.

Lemma bootstrap_builds_dry_wet_pair_witness :
  wf exampleWorld /\
  data (useSampleData convolutionWav loaded) = Some (Decoded convolutionWav) /\
  exists w',
    bootstrapEffect (useSampleData convolutionWav loaded) initialDestinationNodes
      exampleWorld = Ok [2%nat; 3%nat] w' /\
    (pathsToOutput 3 w' 2 + pathsToOutput 3 w' 3 = 2)%nat.
Proof.
  split; [apply wf_exampleWorld |]. split; [reflexivity |].
  destruct (bootstrap_builds_dry_wet_pair exampleWorld
              (useSampleData convolutionWav loaded) (Decoded convolutionWav) 0
              wf_exampleWorld eq_refl)
    as (_ & _ & w' & Heq & _ & _ & _ & _ & Hdry & Hwet & _).
  exists w'. split; [exact Heq |].
  cbn [Nat.add] in Hdry, Hwet. cbn [next_id exampleWorld] in *.
  change (next_id exampleWorld) with 1%nat in *.
  by rewrite Hdry, Hwet.
Defined.

(** The two events of C2 can be delivered in either order, and in both the
    head's pending callback runs: it starts the loop node, which has no
    connection left and so makes no sound. *)
Lemma stop_during_attack_events_possible (k : NoteButton) (w : World) :
  wf w -> distinctRefs k ->
  let h := next_id w in
  let l := S h in
  let t := S l in
  let w2 := worldOf (stop k (worldOf (start k w))) in
  (exists w', dispatchAll [h; t] w2 = Some w' /\
     exists s, sources w' !! l = Some s /\ src_started s = true /\ src_outputs s = ∅) /\
  (exists w', dispatchAll [t; h] w2 = Some w' /\
     exists s, sources w' !! l = Some s /\ src_started s = true /\ src_outputs s = ∅).
Proof.
  intros Hwf Hrefs. cbn zeta. ref_disequalities Hrefs.
  rewrite start_eq. cbn [worldOf].
  rewrite stop_eq by by apply wf_afterStart.
  cbn [worldOf]. stages. cbn [dispatchAll].
  split; stage_bool; stages; stage_bool; stages;
    (eexists; split; [reflexivity |]; eexists; crunch; node_facts).
Qed.

(** * Further properties of the code *)

(** ** Node construction and teardown *)



(** X2: [stopSourceRef] never throws in a well-formed world.  Afterwards the ref
    holds [null]; the node it held has lost all its connections, is marked
    stopped exactly if it had been started (a [stop()] on a node that never
    started fails and is swallowed), and is otherwise as it was; every other
    ref and every other node is untouched.  A second call does nothing at
    all: it makes no Web Audio call and changes no state. *)
Theorem stopSourceRef_releases (r : nat) (w : World) :
  wf w ->
  exists w',
    stopSourceRef r w = Ok tt w' /\
    refs w' !! r = None /\
    (forall r', r' ≠ r -> refs w' !! r' = refs w !! r') /\
    (forall n s, refs w !! r = Some n -> sources w !! n = Some s ->
       sources w' !! n
       = Some (set_outputs ∅ (set_stopped (src_started s || src_stopped s) s)) /\
       calls w' = calls w ++ [CStop n; CDisconnect n]) /\
    (forall n, refs w !! r ≠ Some n -> sources w' !! n = sources w !! n) /\
    (refs w !! r = None -> w' = w) /\
    stopSourceRef r w' = Ok tt w'.
Proof.
  intros Hwf. exists (afterStopSourceRef r w).
  split; [apply stopSourceRef_eq; intros n; apply (wf_refs _ Hwf) |].
  assert (Hnull : refs (afterStopSourceRef r w) !! r = None)
    by (rewrite refs_afterStopSourceRef by done; apply lookup_delete_eq).
  split; [exact Hnull |].
  split; [intros r' Hr'; rewrite refs_afterStopSourceRef by done;
          by apply lookup_delete_ne |].
  split.
  { intros n s Hr Hs. unfold afterStopSourceRef. rewrite Hr, Hs. cbn.
    rewrite lookup_insert_eq. unfold released.
    destruct s as [? ? ? ? [] [] ? ? ?]; cbn; done. }
  split.
  { intros n Hn. unfold afterStopSourceRef.
    destruct (refs w !! r) as [m|] eqn:Hr; [| done].
    destruct (sources w !! m) as [s|] eqn:Hs; [| done].
    cbn. apply lookup_insert_ne. congruence. }
  split; [apply afterStopSourceRef_null |].
  by apply stopSourceRef_null.
Qed.

Lemma stopSourceRef_releases_witness :
  wf pressedWorld /\
  exists w',
    stopSourceRef (loopSourceRef exampleKey) pressedWorld = Ok tt w' /\
    refs w' !! loopSourceRef exampleKey = None /\
    stopSourceRef (loopSourceRef exampleKey) w' = Ok tt w'.
Proof.
  assert (H : wf pressedWorld) by apply reachable_wf, reachable_pressedWorld.
  split; [exact H |].
  destruct (stopSourceRef_releases (loopSourceRef exampleKey) pressedWorld H)
    as (w' & Heq & Hnull & _ & _ & _ & _ & Hagain).
  exists w'. split; [exact Heq |]. split; [exact Hnull | exact Hagain].
Defined.

(** ** The attack stage *)

(** X3: for a key whose note is a MIDI note number (0 to 127, where the
    playback rate is a finite number that the node accepts) [start] never
    throws, whatever the world.  It calls [resume] exactly when the context
    does not read running, and what the context state reads is the same
    after [start] as before: as long as the context is still suspended, a
    further [start] calls [resume] again.  It creates three nodes with the
    next three ids, all with the playback rate of the key's note and
    connected to the key's destination nodes: the head, started, with the
    one listener that starts the loop node; the loop node, looping, not
    started; the tail node, not started and without a callback.  The key's
    three handles hold them.  Every node that existed and every other ref is
    as it was, and no [stop] or [disconnect] call is made. *)
Theorem start_builds_voice (k : NoteButton) (w : World) :
  distinctRefs k ->
  0 <= note k <= 127 ->
  let ds := NoteButtonProps.destinationNodes (props k) in
  let rate := pitchRatio (note k) in
  let h := next_id w in
  let l := S h in
  let t := S l in
  let w' := worldOf (start k w) in
  returns (start k w) /\
  ctx_state w' = ctx_state w /\
  next_id w' = S t /\
  sources w' !! h
  = Some (mkSource (Some (NoteButtonProps.head (props k))) false rate (list_to_set ds)
            true false false [StartSource l] None) /\
  sources w' !! l
  = Some (mkSource (Some (NoteButtonProps.loop (props k))) true rate (list_to_set ds)
            false false false [] None) /\
  sources w' !! t
  = Some (mkSource (Some (NoteButtonProps.tail (props k))) false rate (list_to_set ds)
            false false false [] None) /\
  handles k w' = (Some h, Some l, Some t) /\
  (forall n, (n < h)%nat -> sources w' !! n = sources w !! n) /\
  (forall r, r ≠ headSourceRef k -> r ≠ loopSourceRef k -> r ≠ tailSourceRef k ->
             refs w' !! r = refs w !! r) /\
  routes w' = routes w /\
  calls w'
  = calls w ++ (if ctx_state w is Suspended then [CResume] else [])
      ++ CCreateBufferSource h :: map (CConnect h) ds ++ [CStart h]
      ++ CCreateBufferSource l :: map (CConnect l) ds
      ++ CCreateBufferSource t :: map (CConnect t) ds /\
  (ctx_state w = Suspended ->
   exists cs, calls (worldOf (start k w')) = calls w' ++ CResume :: cs).
Proof.
  intros Hrefs Hnote. cbn zeta. ref_disequalities Hrefs.
  rewrite !start_eq. cbn [worldOf returns].
  assert (Hsecond : ctx_state w = Suspended ->
            exists cs, calls (afterStart k (afterStart k w))
                       = calls (afterStart k w) ++ CResume :: cs).
  { intros Hsusp. set (w1 := afterStart k w).
    assert (Hw1 : ctx_state w1 = Suspended) by exact Hsusp.
    unfold afterStart. cbn [calls]. unfold resumeCalls. rewrite Hw1.
    eexists. reflexivity. }
  split; [exact I |]. split; [reflexivity |]. split; [reflexivity |].
  split; [unfold afterStart; cbn; by maps |].
  split; [unfold afterStart; cbn; by maps |].
  split; [unfold afterStart; cbn; by maps |].
  split; [unfold afterStart, handles; cbn; by maps |].
  split; [intros n Hn; unfold afterStart; cbn; by maps |].
  split; [intros r ? ? ?; unfold afterStart; cbn; by maps |].
  split; [reflexivity |].
  split; [unfold afterStart, resumeCalls; cbn; by destruct (ctx_state w) |].
  exact Hsecond.
Qed.

Lemma start_builds_voice_witness :
  distinctRefs exampleKey /\ 0 <= note exampleKey <= 127 /\
  handles exampleKey (worldOf (start exampleKey exampleWorld))
  = (Some 1%nat, Some 2%nat, Some 3%nat) /\
  ctx_state (worldOf (start exampleKey exampleWorld)) = Suspended.
Proof.
  assert (Hnote : 0 <= note exampleKey <= 127) by (unfold note; cbn; lia).
  split; [apply distinctRefs_exampleKey |]. split; [exact Hnote |].
  pose proof (start_builds_voice exampleKey exampleWorld distinctRefs_exampleKey Hnote)
    as H.
  cbn zeta in H. destruct H as (_ & Hst & _ & _ & _ & _ & Hh & _).
  split; [exact Hh | exact Hst].
Defined.

(** ** What an operation leaves alone *)

Lemma refsInjective_sub w w' :
  refsInjective w ->
  (forall r n, refs w' !! r = Some n -> refs w !! r = Some n) ->
  refsInjective w'.
Proof. intros Hinj Hsub r r' n H H'. eapply Hinj; by apply Hsub. Qed.

Lemma refs_afterStopSourceRef_sub r0 w r n :
  refs (afterStopSourceRef r0 w) !! r = Some n -> refs w !! r = Some n.
Proof.
  unfold afterStopSourceRef.
  destruct (refs w !! r0) as [m|] eqn:Hr; [| done].
  destruct (sources w !! m) as [s|] eqn:Hs; [| done].
  cbn. intros H. by apply lookup_delete_Some in H as [_ H].
Qed.

Lemma refs_afterStop_sub k w r n :
  refs (afterStop k w) !! r = Some n -> refs w !! r = Some n.
Proof.
  unfold afterStop. rewrite refs_armTail. intros H.
  by do 2 apply refs_afterStopSourceRef_sub in H.
Qed.

Lemma afterStopSourceRef_other_node r0 w n :
  refs w !! r0 ≠ Some n -> sources (afterStopSourceRef r0 w) !! n = sources w !! n.
Proof.
  intros Hn. unfold afterStopSourceRef.
  destruct (refs w !! r0) as [m|] eqn:Hr; [| done].
  destruct (sources w !! m) as [s|] eqn:Hs; [| done].
  cbn. apply lookup_insert_ne. congruence.
Qed.

Lemma armTail_other_node r0 w n :
  refs w !! r0 ≠ Some n -> sources (armTail r0 w) !! n = sources w !! n.
Proof.
  intros Hn. unfold armTail.
  destruct (refs w !! r0) as [m|] eqn:Hr; [| done].
  destruct (sources w !! m) as [s|] eqn:Hs; [| done].
  cbn. apply lookup_insert_ne. congruence.
Qed.

(** [stop] changes no node but those the key's three handles hold. *)
Lemma afterStop_other_node k w n :
  refs w !! headSourceRef k ≠ Some n ->
  refs w !! loopSourceRef k ≠ Some n ->
  refs w !! tailSourceRef k ≠ Some n ->
  sources (afterStop k w) !! n = sources w !! n.
Proof.
  intros Hh Hl Ht. unfold afterStop.
  rewrite armTail_other_node, !afterStopSourceRef_other_node; try done.
  - intros H. by apply refs_afterStopSourceRef_sub in H.
  - intros H. by do 2 apply refs_afterStopSourceRef_sub in H.
Qed.

Lemma held_below_next w r n : wf w -> refs w !! r = Some n -> (n < next_id w)%nat.
Proof. intros Hwf H. by eapply wf_sources, wf_refs. Qed.

Lemma refsInjective_afterStart k w : wf w -> refsInjective w -> refsInjective (afterStart k w).
Proof.
  intros Hwf Hinj r r' n. unfold afterStart. cbn. rewrite !lookup_insert.
  intros H H'.
  repeat case_decide; simplify_eq; try done; try lia;
    try (apply (held_below_next _ _ _ Hwf) in H; lia);
    try (apply (held_below_next _ _ _ Hwf) in H'; lia).
  by eapply Hinj.
Qed.

Lemma refs_sourceStart n w : refs (worldOf (sourceStart n w)) = refs w.
Proof.
  unfold sourceStart. maps.
  destruct (sources w !! n) as [s|]; [destruct (src_started s) |]; done.
Qed.

Lemma refs_runCallback_sub cb w r n :
  wf w -> refs (worldOf (runCallback cb w)) !! r = Some n -> refs w !! r = Some n.
Proof.
  intros Hwf. destruct cb as [m | r0]; cbn [runCallback].
  - by rewrite refs_sourceStart.
  - rewrite stopSourceRef_eq by (intros m; apply (wf_refs _ Hwf)).
    apply refs_afterStopSourceRef_sub.
Qed.

Lemma refs_runCallbacks_sub cbs : forall w r n,
  wf w ->
  refs (fold_left (fun w' cb => worldOf (runCallback cb w')) cbs w) !! r = Some n ->
  refs w !! r = Some n.
Proof.
  induction cbs as [| cb cbs IH]; intros w r n Hwf; cbn; [done |].
  intros H. apply IH in H; [| by apply wf_runCallback].
  by eapply refs_runCallback_sub.
Qed.

Lemma refs_dispatchEnded_sub m w r n :
  wf w -> refs (dispatchEnded m w) !! r = Some n -> refs w !! r = Some n.
Proof.
  intros Hwf. unfold dispatchEnded.
  destruct (sources w !! m) as [s|] eqn:Hs; [| done].
  intros H. apply refs_runCallbacks_sub in H; [done |].
  apply (wf_same w); cbn; try done.
  intros a. apply is_Some_insert_present. by rewrite Hs.
Qed.

Lemma refsInjective_step w w' : wf w -> refsInjective w -> Step w w' -> refsInjective w'.
Proof.
  intros Hwf Hinj Hstep. revert Hwf Hinj.
  destruct Hstep as [r w | k g w | n w Hn | conv ds w | w Hres]; intros Hwf Hinj.
  - done.
  - destruct g; cbn; rewrite ?start_eq, ?stop_eq by done; cbn;
      try (by apply refsInjective_afterStart);
      apply (refsInjective_sub w); try done; apply refs_afterStop_sub.
  - apply (refsInjective_sub w); [done |]. intros r m. by apply refs_dispatchEnded_sub.
  - destruct (data conv) as [ir|] eqn:Hd.
    + by rewrite (bootstrapEffect_eq conv ir).
    + by rewrite bootstrapEffect_pending.
  - done.
Qed.

Lemma refsInjective_reachable w : reachable w -> refsInjective w.
Proof.
  induction 1 as [st | w w' Hreach IH Hstep].
  - intros r r' n H. cbn in H. by rewrite lookup_empty in H.
  - eapply refsInjective_step; [by apply reachable_wf | exact IH | exact Hstep].
Qed.

(** X8: In every world the application can get into, a non-null ref holds a
    source node that exists, and no node is held by two refs: [start] puts
    each node it creates into one ref, and nothing else ever writes a node
    into a ref. *)
Theorem reachable_refs_injective (w : World) :
  reachable w ->
  refsInjective w /\
  (forall r n, refs w !! r = Some n -> is_Some (sources w !! n)).
Proof.
  intros Hreach. split; [by apply refsInjective_reachable |].
  apply wf_refs, reachable_wf, Hreach.
Qed.

Lemma reachable_refs_injective_witness :
  reachable pressedWorld /\ refsInjective pressedWorld.
Proof.
  split; [apply reachable_pressedWorld |].
  exact (proj1 (reachable_refs_injective pressedWorld reachable_pressedWorld)).
Defined.



(** ** Nodes that no handle reaches *)

Lemma unheld_sub w w' n :
  unheld w n ->
  (forall r m, refs w' !! r = Some m -> refs w !! r = Some m) ->
  unheld w' n.
Proof. intros Hun Hsub r H. by apply Hsub, Hun in H. Qed.

Lemma sourceStart_keeps_started x w n s :
  sources w !! n = Some s -> src_started s = true ->
  sources (worldOf (sourceStart x w)) !! n = Some s.
Proof.
  intros Hs Hst. unfold sourceStart. maps.
  destruct (decide (x = n)) as [-> | Hne].
  - by rewrite Hs, Hst.
  - destruct (sources w !! x) as [s'|]; [destruct (src_started s') |]; cbn; try done.
    by rewrite lookup_insert_ne.
Qed.

Lemma runCallback_keeps_orphan cb w n s :
  wf w -> sources w !! n = Some s -> src_started s = true -> unheld w n ->
  sources (worldOf (runCallback cb w)) !! n = Some s /\
  unheld (worldOf (runCallback cb w)) n.
Proof.
  intros Hwf Hs Hst Hun. split.
  - destruct cb as [x | r]; cbn [runCallback].
    + by apply sourceStart_keeps_started.
    + rewrite stopSourceRef_eq by (intros m; apply (wf_refs _ Hwf)). cbn [worldOf].
      by rewrite afterStopSourceRef_other_node.
  - apply (unheld_sub w); [done |]. intros r m. by apply refs_runCallback_sub.
Qed.

Lemma runCallbacks_keep_orphan cbs n s : forall w,
  wf w -> sources w !! n = Some s -> src_started s = true -> unheld w n ->
  sources (fold_left (fun w' cb => worldOf (runCallback cb w')) cbs w) !! n = Some s /\
  unheld (fold_left (fun w' cb => worldOf (runCallback cb w')) cbs w) n.
Proof.
  induction cbs as [| cb cbs IH]; intros w Hwf Hs Hst Hun; cbn; [done |].
  destruct (runCallback_keeps_orphan cb w n s Hwf Hs Hst Hun) as [Hs' Hun'].
  apply IH; try done. by apply wf_runCallback.
Qed.

Lemma unheld_afterStart k w n :
  wf w -> (n < next_id w)%nat -> unheld w n -> unheld (afterStart k w) n.
Proof.
  intros Hwf Hn Hun r. unfold afterStart. cbn. rewrite !lookup_insert.
  repeat case_decide; try (intros [= <-]; lia). apply Hun.
Qed.

(** A playing, looping node that no ref holds survives every step. *)
Lemma orphan_step w w' n s :
  wf w -> Step w w' ->
  sources w !! n = Some s -> src_loop s = true -> playing s = true -> unheld w n ->
  sources w' !! n = Some s /\ unheld w' n.
Proof.
  intros Hwf Hstep Hs Hloop Hplay Hun.
  unfold playing in Hplay. apply andb_prop in Hplay as [Hplay Hended].
  apply andb_prop in Hplay as [Hst Hstopped].
  apply negb_true_iff in Hended, Hstopped.
  assert (Hlt : (n < next_id w)%nat) by (apply (wf_sources _ Hwf); by rewrite Hs).
  revert Hwf Hs Hun Hlt.
  destruct Hstep as [r w | k g w | m w Hm | conv ds w | w Hres];
    intros Hwf Hs Hun Hlt; [| | | | done].
  - done.
  - assert (Hstart : sources (afterStart k w) !! n = Some s /\ unheld (afterStart k w) n).
    { split; [| by apply unheld_afterStart]. unfold afterStart. cbn. by maps. }
    assert (Hstop : sources (afterStop k w) !! n = Some s /\ unheld (afterStop k w) n).
    { split.
      - by rewrite afterStop_other_node.
      - apply (unheld_sub w); [done |]. apply refs_afterStop_sub. }
    destruct g; cbn [handler]; rewrite ?start_eq, ?stop_eq by done; cbn [worldOf];
      assumption.
  - assert (Hne : m ≠ n).
    { intros ->. unfold canEnd in Hm. rewrite Hs, Hst, Hended, Hloop, Hstopped in Hm.
      discriminate Hm. }
    unfold dispatchEnded. destruct (sources w !! m) as [sm|] eqn:Hsm; [| done].
    apply runCallbacks_keep_orphan; try done.
    + apply (wf_same w); cbn; try done.
      intros a. apply is_Some_insert_present. by rewrite Hsm.
    + cbn. by rewrite lookup_insert_ne.
  - destruct (data conv) as [ir|] eqn:Hd.
    + by rewrite (bootstrapEffect_eq conv ir).
    + by rewrite bootstrapEffect_pending.
Qed.

Lemma reachable_doublePressedWorld : reachable doublePressedWorld.
Proof.
  apply (ReachStep (worldOf (start exampleKey pressedWorld))).
  - apply (ReachStep pressedWorld); [apply reachable_pressedWorld |].
    apply (StepGesture exampleKey MouseDown).
  - apply StepEnded. vm_compute. reflexivity.
Qed.

(** X7: A looping node that plays and that no ref holds stays exactly as it is,
    playing and with all its connections, whatever happens next: no gesture
    on any key, no "ended" event and no run of the bootstrap effect stops or
    disconnects it.  ([start] overwrites the handles without stopping the
    nodes they hold, so the loop node of an overwritten voice becomes such a
    node as soon as its head completes.) *)
Theorem orphaned_loop_plays_on (w w' : World) (n : nat) (s : SourceNode) :
  wf w -> rtc Step w w' ->
  sources w !! n = Some s -> src_loop s = true -> playing s = true -> unheld w n ->
  sources w' !! n = Some s.
Proof.
  intros Hwf Hsteps. revert Hwf.
  induction Hsteps as [w | w w1 w' Hstep Hsteps IH]; intros Hwf Hs Hloop Hplay Hun;
    [done |].
  destruct (orphan_step w w1 n s Hwf Hstep Hs Hloop Hplay Hun) as [Hs1 Hun1].
  apply IH; try done. by eapply wf_step.
Qed.

Lemma orphaned_loop_plays_on_witness :
  wf doublePressedWorld /\
  rtc Step doublePressedWorld (worldOf (handler exampleKey MouseUp doublePressedWorld)) /\
  handles exampleKey doublePressedWorld = (Some 4%nat, Some 5%nat, Some 6%nat) /\
  unheld doublePressedWorld 2 /\
  exists s,
    sources doublePressedWorld !! 2%nat = Some s /\
    src_loop s = true /\ playing s = true /\ src_outputs s = {[destination]} /\
    sources (worldOf (handler exampleKey MouseUp doublePressedWorld)) !! 2%nat = Some s.
Proof.
  assert (Hwf : wf doublePressedWorld) by apply reachable_wf, reachable_doublePressedWorld.
  assert (Hsteps : rtc Step doublePressedWorld
                     (worldOf (handler exampleKey MouseUp doublePressedWorld)))
    by (apply rtc_once; apply StepGesture).
  assert (Hun : unheld doublePressedWorld 2).
  { intros r H.
    apply (map_Forall_lookup_1 (fun _ m => m ≠ 2%nat)) in H; [done |].
    apply (bool_decide_unpack _). vm_compute. reflexivity. }
  split; [exact Hwf |]. split; [exact Hsteps |]. split; [vm_compute; reflexivity |].
  split; [exact Hun |].
  eexists. split; [vm_compute; reflexivity |].
  split; [reflexivity |]. split; [reflexivity |]. split; [reflexivity |].
  apply (orphaned_loop_plays_on doublePressedWorld _ 2 _ Hwf Hsteps);
    [vm_compute; reflexivity | reflexivity | reflexivity | exact Hun].
Defined.

(** Innermost-first evaluation for sequences of several gestures: each
    [afterStart] and [afterStop] is evaluated once its argument is a record
    of maps. *)
Ltac literal_world x :=
  first [ is_var x | match x with mkWorld _ _ _ _ _ _ _ => idtac end ].

Ltac gestures :=
  repeat match goal with
    | |- context [afterStart ?k ?x] =>
        literal_world x;
        let E := fresh "E" in
        eassert (E : afterStart k x = _)
          by (unfold afterStart;
              cbn [ctx_state next_id sources routes refs buttons calls]; reflexivity);
        rewrite !E; clear E
    | |- context [afterStop ?k ?x] =>
        literal_world x;
        let E := fresh "E" in
        eassert (E : afterStop k x = _) by (stages; reflexivity);
        rewrite !E; clear E
    | |- context [dispatchEnded ?n (mkWorld ?a ?b ?c ?d ?e ?f ?g)] =>
        stage_eval (dispatchEnded n (mkWorld a b c d e f g))
    end.

(** ** Pressing a key again while its tail still plays *)

(** X5: The completion callback of a tail closes over the key's tail ref, not
    over the tail node.  When a key is pressed, released and pressed again,
    and the first voice's tail then completes, its callback tears down what
    the ref holds now: the second voice's tail, which is disconnected before
    it was ever started, and the handle is cleared.  The first tail itself
    keeps its connections.  The [stop] that follows stops and disconnects
    head and loop of the second voice and starts no tail at all: the key is
    IDLE at once. *)
Theorem retrigger_loses_tail (k : NoteButton) (w : World) :
  wf w -> distinctRefs k ->
  let ds := NoteButtonProps.destinationNodes (props k) in
  let h := next_id w in
  let t1 := S (S h) in
  let h2 := S t1 in
  let l2 := S h2 in
  let t2 := S l2 in
  let w3 := worldOf (start k (worldOf (stop k (worldOf (start k w))))) in
  let w4 := dispatchEnded t1 w3 in
  let w5 := worldOf (stop k w4) in
  handles k w3 = (Some h2, Some l2, Some t2) /\
  canEnd w3 t1 = true /\
  handles k w4 = (Some h2, Some l2, None) /\
  (exists s, sources w4 !! t2 = Some s /\ src_started s = false /\ src_outputs s = ∅) /\
  (exists s, sources w4 !! t1 = Some s /\ src_ended s = true /\
             src_outputs s = list_to_set ds) /\
  returns (stop k w4) /\
  calls w5 = calls w4 ++ [CStop h2; CDisconnect h2; CStop l2; CDisconnect l2] /\
  (exists s, sources w5 !! t2 = Some s /\ src_started s = false) /\
  idle k w5.
Proof.
  intros Hwf Hrefs. cbn zeta. ref_disequalities Hrefs.
  rewrite (start_eq k w). cbn [worldOf].
  rewrite (stop_eq k (afterStart k w)) by by apply wf_afterStart.
  cbn [worldOf]. rewrite start_eq. cbn [worldOf].
  rewrite stop_eq
    by by apply wf_dispatchEnded, wf_afterStart, wf_afterStop, wf_afterStart.
  cbn [worldOf returns]. gestures.
  split; [crunch; reflexivity |].
  split; [crunch; reflexivity |].
  split; [crunch; reflexivity |].
  split; [eexists; crunch; node_facts |].
  split; [eexists; crunch; node_facts |].
  split; [exact I |].
  split; [crunch; rewrite <- !app_assoc; reflexivity |].
  split; [eexists; crunch; node_facts |].
  crunch. reflexivity.
Qed.

Lemma retrigger_loses_tail_witness :
  wf exampleWorld /\ distinctRefs exampleKey /\
  handles exampleKey (dispatchEnded 3 retriggeredWorld) = (Some 4%nat, Some 5%nat, None) /\
  idle exampleKey (worldOf (stop exampleKey (dispatchEnded 3 retriggeredWorld))).
Proof.
  split; [apply wf_exampleWorld |]. split; [apply distinctRefs_exampleKey |].
  pose proof (retrigger_loses_tail exampleKey exampleWorld
                wf_exampleWorld distinctRefs_exampleKey) as H.
  cbn zeta in H. destruct H as (_ & _ & H4 & _ & _ & _ & _ & _ & H5).
  split; [exact H4 | exact H5].
Defined.

(** X6: The same closure cuts a release short.  When a key is pressed, released,
    pressed and released again while the first voice's tail still plays, the
    second voice's tail is playing, connected; the completion of the first
    tail then stops and disconnects the second tail and clears the handle,
    and leaves the first tail connected. *)
Theorem retrigger_cuts_release_short (k : NoteButton) (w : World) :
  wf w -> distinctRefs k ->
  let ds := NoteButtonProps.destinationNodes (props k) in
  let h := next_id w in
  let t1 := S (S h) in
  let t2 := S (S (S t1)) in
  let w4 :=
    worldOf (stop k (worldOf (start k (worldOf (stop k (worldOf (start k w))))))) in
  let w5 := dispatchEnded t1 w4 in
  handles k w4 = (None, None, Some t2) /\
  (exists s, sources w4 !! t2 = Some s /\ playing s = true /\
             src_outputs s = list_to_set ds) /\
  canEnd w4 t1 = true /\
  (exists s, sources w5 !! t2 = Some s /\ src_stopped s = true /\ src_outputs s = ∅) /\
  (exists s, sources w5 !! t1 = Some s /\ src_ended s = true /\
             src_outputs s = list_to_set ds) /\
  idle k w5.
Proof.
  intros Hwf Hrefs. cbn zeta. ref_disequalities Hrefs.
  rewrite (start_eq k w). cbn [worldOf].
  rewrite (stop_eq k (afterStart k w)) by by apply wf_afterStart.
  cbn [worldOf]. rewrite start_eq. cbn [worldOf].
  rewrite stop_eq by by apply wf_afterStart, wf_afterStop, wf_afterStart.
  cbn [worldOf]. gestures.
  split; [crunch; reflexivity |].
  split; [eexists; crunch; node_facts |].
  split; [crunch; reflexivity |].
  split; [eexists; crunch; node_facts |].
  split; [eexists; crunch; node_facts |].
  crunch. reflexivity.
Qed.

Lemma retrigger_cuts_release_short_witness :
  wf exampleWorld /\ distinctRefs exampleKey /\
  idle exampleKey (dispatchEnded 3 (worldOf (stop exampleKey retriggeredWorld))).
Proof.
  split; [apply wf_exampleWorld |]. split; [apply distinctRefs_exampleKey |].
  pose proof (retrigger_cuts_release_short exampleKey exampleWorld
                wf_exampleWorld distinctRefs_exampleKey) as H.
  cbn zeta in H. apply H.
Defined.

(** ** Voices and the reverb graph together *)

Lemma pathsToOutput_routes fuel : forall w1 w2 n,
  routes w1 = routes w2 -> pathsToOutput fuel w1 n = pathsToOutput fuel w2 n.
Proof.
  induction fuel as [| fuel IH]; intros w1 w2 n Hr; cbn [pathsToOutput]; [done |].
  rewrite Hr. destruct (routes w2 !! n) as [r|]; [| done].
  destruct (r_kind r); [done | |];
    induction (elements (r_outputs r)) as [| d l IHl]; cbn [foldr]; try done;
    by rewrite IHl, (IH w1 w2 d Hr).
Qed.

Lemma pathsToOutput_afterBootstrap ir w extra :
  wf w ->
  pathsToOutput (S extra) (afterBootstrap ir w) destination = 1%nat /\
  pathsToOutput (3 + extra) (afterBootstrap ir w) (S (next_id w)) = 1%nat /\
  pathsToOutput (3 + extra) (afterBootstrap ir w) (S (S (next_id w))) = 1%nat.
Proof.
  intros Hwf.
  pose proof (wf_destination _ (wf_afterBootstrap ir w Hwf)) as Hdest.
  assert (Hdry : routes (afterBootstrap ir w) !! S (next_id w)
                 = Some (mkRoute (Gain (8 # 10)) {[destination]}))
    by (unfold afterBootstrap; cbn [routes]; by maps).
  assert (Hwet : routes (afterBootstrap ir w) !! S (S (next_id w))
                 = Some (mkRoute (Gain (2 # 10)) {[next_id w]}))
    by (unfold afterBootstrap; cbn [routes]; by maps).
  assert (Hconv : routes (afterBootstrap ir w) !! next_id w
                  = Some (mkRoute (Convolver (Some ir)) {[destination]}))
    by (unfold afterBootstrap; cbn [routes]; by maps).
  split; [cbn [pathsToOutput]; by rewrite Hdest |].
  split.
  - cbn [Nat.add pathsToOutput]. rewrite Hdry. cbn [r_kind r_outputs].
    rewrite elements_singleton. cbn [foldr]. by rewrite Hdest.
  - cbn [Nat.add pathsToOutput]. rewrite Hwet. cbn [r_kind r_outputs].
    rewrite elements_singleton. cbn [foldr]. rewrite Hconv. cbn [r_kind r_outputs].
    rewrite elements_singleton. cbn [foldr]. by rewrite Hdest.
Qed.

(** X10: Once the bootstrap effect has run and a key is rendered with the
    destination set it returned, every node of a voice the key starts reaches
    the output along exactly two signal paths, the dry and the wet one.  A
    source node that was connected to the output alone before the effect ran
    is left as it was and still reaches the output along one path: the swap
    does not reroute voices that are already there. *)
Theorem voices_route_through_reverb
    (k : NoteButton) (w : World) (conv : SWRResponse) (ir : AudioBuffer) (extra : nat) :
  wf w ->
  data conv = Some ir ->
  let wB := worldOf (bootstrapEffect conv initialDestinationNodes w) in
  let w' := worldOf (start k wB) in
  NoteButtonProps.destinationNodes (props k) = [S (next_id w); S (S (next_id w))] ->
  (forall i, (i < 3)%nat -> sourcePaths (3 + extra) w' (i + next_id wB) = 2%nat) /\
  (forall n s, sources w !! n = Some s -> src_outputs s = {[destination]} ->
               sources w' !! n = Some s /\ sourcePaths (3 + extra) w' n = 1%nat).
Proof.
  intros Hwf Hdata. cbn zeta.
  rewrite (bootstrapEffect_eq conv ir) by done. cbn [worldOf].
  rewrite start_eq. cbn [worldOf]. intros Hds.
  assert (Hroutes : routes (afterStart k (afterBootstrap ir w))
                    = routes (afterBootstrap ir w)) by reflexivity.
  destruct (pathsToOutput_afterBootstrap ir w extra Hwf) as (_ & Hdry & Hwet).
  destruct (pathsToOutput_afterBootstrap ir w (2 + extra) Hwf) as (Hdest & _ & _).
  assert (Hnew : forall o : gset nat,
            o = list_to_set (NoteButtonProps.destinationNodes (props k)) ->
            sum_list (pathsToOutput (3 + extra) (afterStart k (afterBootstrap ir w))
                        <$> elements o)
            = 2%nat).
  { intros o ->. rewrite Hds.
    rewrite elements_list_to_set
      by (repeat constructor; rewrite ?list_elem_of_In; cbn; lia).
    cbn [fmap list_fmap sum_list_with].
    rewrite !(pathsToOutput_routes _ _ _ _ Hroutes).
    unfold id. by rewrite Hdry, Hwet. }
  split.
  - intros i Hi. unfold sourcePaths.
    destruct i as [| [| [| i]]]; [.. | lia];
      unfold afterStart at 1; cbn [sources next_id afterBootstrap Nat.add]; maps;
      apply Hnew; reflexivity.
  - intros n s Hs Hout.
    assert (Hlt : (n < next_id w)%nat) by (apply (wf_sources _ Hwf); by rewrite Hs).
    assert (Hsame : sources (afterStart k (afterBootstrap ir w)) !! n = Some s)
      by (unfold afterStart, afterBootstrap; cbn; by maps).
    split; [exact Hsame |].
    unfold sourcePaths. rewrite Hsame, Hout, elements_singleton.
    cbn [fmap list_fmap sum_list_with]. unfold id.
    rewrite (pathsToOutput_routes _ _ _ _ Hroutes).
    change (3 + extra)%nat with (S (2 + extra)). by rewrite Hdest.
Qed.

Lemma voices_route_through_reverb_witness :
  wf exampleWorld /\
  data (useSampleData convolutionWav loaded) = Some (Decoded convolutionWav) /\
  NoteButtonProps.destinationNodes (props reverbKey)
  = [S (next_id exampleWorld); S (S (next_id exampleWorld))] /\
  sourcePaths 3
    (worldOf (start reverbKey
                (worldOf (bootstrapEffect (useSampleData convolutionWav loaded)
                            initialDestinationNodes exampleWorld))))
    4 = 2%nat.
Proof.
  split; [apply wf_exampleWorld |]. split; [reflexivity |]. split; [reflexivity |].
  exact (proj1 (voices_route_through_reverb reverbKey exampleWorld
                  (useSampleData convolutionWav loaded) (Decoded convolutionWav) 0
                  wf_exampleWorld eq_refl eq_refl) 0%nat ltac:(lia)).
Defined.

(** ** Labels *)

Lemma to_int_nonnil (z : Z) :
  Z.to_int z <> Decimal.Pos Decimal.Nil /\ Z.to_int z <> Decimal.Neg Decimal.Nil.
Proof.
  destruct z as [| p | p]; cbn; split; try discriminate;
    intros [= H]; by apply DecimalPos.Unsigned.to_uint_nonnil in H.
Qed.

(** The decimal text of a number determines the number. *)
Lemma numberToString_inj (a b : Z) :
  JS.numberToString a = JS.numberToString b -> a = b.
Proof.
  unfold JS.numberToString. intros H.
  apply (f_equal NilZero.int_of_string) in H.
  destruct (to_int_nonnil a) as [Ha1 Ha2]. destruct (to_int_nonnil b) as [Hb1 Hb2].
  rewrite !NilZero.isi in H by done. injection H as H.
  rewrite <- (DecimalZ.of_to a), <- (DecimalZ.of_to b). by rewrite H.
Qed.

(** It starts with a digit or a minus sign, never with a sharp. *)
Lemma numberToString_head (z : Z) :
  exists c rest, JS.numberToString z = String c rest /\ c <> sharp.
Proof.
  unfold JS.numberToString.
  destruct z as [| p | p]; cbn.
  - eexists _, _. split; [reflexivity | discriminate].
  - pose proof (DecimalPos.Unsigned.to_uint_nonnil p) as Hp.
    destruct (Pos.to_uint p); [done | ..];
      (eexists _, _; split; [reflexivity | discriminate]).
  - eexists _, _. split; [reflexivity | discriminate].
Qed.

(** A pitch-class name followed by a decimal number can be split in one way
    only. *)
Lemma name_prefix_unique (i j : nat) (s t : string) :
  (i < 12)%nat -> (j < 12)%nat ->
  (exists c r, s = String c r /\ c <> sharp) ->
  (exists c r, t = String c r /\ c <> sharp) ->
  (nth i names "" ++ s = nth j names "" ++ t)%string ->
  i = j /\ s = t.
Proof.
  intros Hi Hj (c & r & -> & Hc) (c' & r' & -> & Hc').
  do 12 (try destruct i as [| i]); try lia;
    do 12 (try destruct j as [| j]); try lia;
    cbn; intros H; simplify_eq; done.
Qed.

(** X12: Two different notes from zero upwards never get the same label. *)
Theorem midiNoteToName_distinct (a b : Z) :
  0 <= a -> 0 <= b -> a <> b -> midiNoteToName a <> midiNoteToName b.
Proof.
  intros Ha Hb Hne H. apply Hne. unfold midiNoteToName, JS.floorDiv in H.
  rewrite !remainder_agrees in H by (by left).
  rewrite !index_names_nonneg in H by (apply Z.mod_pos_bound; lia).
  cbn [JS.templateOfOption] in H.
  pose proof (Z.mod_pos_bound a 12 ltac:(lia)) as Hma.
  pose proof (Z.mod_pos_bound b 12 ltac:(lia)) as Hmb.
  apply name_prefix_unique in H as [Hmod Hoct];
    [| lia | lia | apply numberToString_head | apply numberToString_head].
  apply numberToString_inj in Hoct. apply Z2Nat.inj in Hmod; [| lia | lia].
  rewrite (Z.div_mod a 12), (Z.div_mod b 12) by lia. lia.
Qed.

Lemma midiNoteToName_distinct_witness :
  0 <= 60 /\ 0 <= 72 /\ 60 <> 72 /\ midiNoteToName 60 <> midiNoteToName 72.
Proof.
  assert (H1 : 0 <= 60) by lia. assert (H2 : 0 <= 72) by lia.
  assert (H3 : 60 <> 72) by lia.
  split; [exact H1 |]. split; [exact H2 |]. split; [exact H3 |].
  exact (midiNoteToName_distinct 60 72 H1 H2 H3).
Defined.

(** Below zero the labels collide. *)
Example midiNoteToName_negative_collision :
  midiNoteToName (-1) = midiNoteToName (-2).
Proof. reflexivity. Qed.

(** ** The key grid *)

(** X13: Whatever the destination set and the state of the impulse response, the
    grid [App] renders from loaded samples has 35 keys; every key gets the
    destination set and the three buffers; the notes of the keys are pairwise
    different and lie between 36 and 95, so the labels are pairwise
    different too, and each is a pitch-class name followed by its octave. *)
Theorem App_grid_keys (ds : list nat) (convA : Asset) :
  let keys := viewKeys (renderApp ds loaded loaded loaded convA) in
  length keys = 35%nat /\
  Forall (fun p => NoteButtonProps.destinationNodes p = ds /\
                   NoteButtonProps.head p = Decoded headWav /\
                   NoteButtonProps.loop p = Decoded loopWav /\
                   NoteButtonProps.tail p = Decoded tailWav) keys /\
  NoDup (noteOf <$> keys) /\
  Forall (fun p => 36 <= noteOf p <= 95) keys /\
  NoDup (label <$> keys) /\
  Forall (fun p => label p = displayName_spec (noteOf p)) keys.
Proof.
  cbn zeta. unfold renderApp, App. rewrite !useSampleData_data. cbn.
  split; [reflexivity |].
  split; [repeat constructor |].
  split; [apply (bool_decide_unpack _); vm_compute; reflexivity |].
  split; [repeat (constructor; [unfold noteOf; cbn; lia |]); constructor |].
  split; [apply (bool_decide_unpack _); vm_compute; reflexivity |].
  repeat (constructor; [reflexivity |]); constructor.
Qed.

(** ** Releasing during the attack *)

(** X4: When [stop] follows [start] before the head has completed, the tail
    starts at once: [stop] calls [stop()] and [disconnect()] on the head,
    which was playing, then [stop()] on the loop node, which fails because
    the node never started and is swallowed, then [disconnect()] on it and
    [start()] on the tail.  Afterwards the head is stopped and disconnected,
    the loop node is disconnected and neither started nor stopped, the tail
    plays, and only the tail handle is set. *)
Theorem stop_during_attack_starts_tail (k : NoteButton) (w : World) :
  wf w -> distinctRefs k ->
  let ds := NoteButtonProps.destinationNodes (props k) in
  let h := next_id w in
  let l := S h in
  let t := S l in
  let w1 := worldOf (start k w) in
  let w2 := worldOf (stop k w1) in
  (exists s, sources w1 !! h = Some s /\ playing s = true) /\
  (exists w', sourceStop l w1 = Throw InvalidStateError w') /\
  returns (stop k w1) /\
  calls w2 = calls w1 ++ [CStop h; CDisconnect h; CStop l; CDisconnect l; CStart t] /\
  (exists s, sources w2 !! h = Some s /\ src_stopped s = true /\ src_outputs s = ∅ /\
             src_listeners s = [StartSource l]) /\
  (exists s, sources w2 !! l = Some s /\ src_started s = false /\
             src_stopped s = false /\ src_outputs s = ∅) /\
  (exists s, sources w2 !! t = Some s /\ playing s = true /\
             src_outputs s = list_to_set ds) /\
  handles k w2 = (None, None, Some t).
Proof.
  intros Hwf Hrefs. cbn zeta. ref_disequalities Hrefs.
  rewrite start_eq. cbn [worldOf].
  rewrite stop_eq by by apply wf_afterStart.
  cbn [worldOf returns]. gestures.
  split; [eexists; crunch; node_facts |].
  split; [eexists; unfold sourceStop; maps; reflexivity |].
  split; [exact I |].
  split; [crunch; rewrite <- !app_assoc; reflexivity |].
  split; [eexists; crunch; node_facts |].
  split; [eexists; crunch; node_facts |].
  split; [eexists; crunch; node_facts |].
  crunch. reflexivity.
Qed.

Lemma stop_during_attack_starts_tail_witness :
  wf exampleWorld /\ distinctRefs exampleKey /\
  handles exampleKey (worldOf (stop exampleKey (worldOf (start exampleKey exampleWorld))))
  = (None, None, Some 3%nat).
Proof.
  split; [apply wf_exampleWorld |]. split; [apply distinctRefs_exampleKey |].
  pose proof (stop_during_attack_starts_tail exampleKey exampleWorld
                wf_exampleWorld distinctRefs_exampleKey) as H.
  cbn zeta in H. apply H.
Defined.

(** ** Running the bootstrap effect again *)

(** X11: The bootstrap effect never touches what is there: without impulse
    response data it makes no call and changes nothing; with data it makes
    six calls (create and connect for the convolver, the dry gain and the wet
    gain), adds three routing nodes and leaves every routing node that
    existed, every source node, every ref and the context state as they
    were.  Run a second time it builds a second, separate pair. *)
Theorem bootstrap_leaves_existing_graph
    (w : World) (conv : SWRResponse) (ds : list nat) :
  wf w ->
  let w' := worldOf (bootstrapEffect conv ds w) in
  returns (bootstrapEffect conv ds w) /\
  (data conv = None -> bootstrapEffect conv ds w = Ok ds w) /\
  (forall n r, routes w !! n = Some r -> routes w' !! n = Some r) /\
  sources w' = sources w /\ refs w' = refs w /\ ctx_state w' = ctx_state w /\
  (forall ir, data conv = Some ir ->
     let c := next_id w in
     calls w' = calls w ++ [CCreateConvolver c; CConnect c destination;
                            CCreateGain (S c); CConnect (S c) destination;
                            CCreateGain (S (S c)); CConnect (S (S c)) c] /\
     exists ds2 w2,
       bootstrapEffect conv ds w' = Ok ds2 w2 /\
       ds2 = [S (S (S (S c))); S (S (S (S (S c))))] /\
       (forall n r, routes w' !! n = Some r -> routes w2 !! n = Some r)).
Proof.
  intros Hwf. cbn zeta.
  assert (Hframe : forall ir w0, wf w0 -> forall n r,
            routes w0 !! n = Some r -> routes (afterBootstrap ir w0) !! n = Some r).
  { intros ir w0 Hwf0 n r Hn.
    assert (n < next_id w0)%nat by (apply (wf_routes _ Hwf0); by rewrite Hn).
    unfold afterBootstrap. cbn [routes]. by maps. }
  destruct (data conv) as [ir|] eqn:Hd.
  - rewrite (bootstrapEffect_eq conv ir) by done. cbn [worldOf returns].
    split; [exact I |]. split; [discriminate |].
    split; [by apply Hframe |].
    split; [reflexivity |]. split; [reflexivity |]. split; [reflexivity |].
    intros ir' [= <-]. split; [reflexivity |].
    eexists _, _. split; [by apply bootstrapEffect_eq |].
    split; [reflexivity |].
    apply Hframe. by apply wf_afterBootstrap.
  - rewrite bootstrapEffect_pending by done. cbn [worldOf returns].
    split; [exact I |]. split; [done |]. split; [done |].
    split; [reflexivity |]. split; [reflexivity |]. split; [reflexivity |].
    intros ir' [=].
Qed.

Lemma bootstrap_leaves_existing_graph_witness :
  wf pressedWorld /\
  sources (worldOf (bootstrapEffect (useSampleData convolutionWav loaded)
                      initialDestinationNodes pressedWorld))
  = sources pressedWorld.
Proof.
  assert (Hwf : wf pressedWorld) by apply reachable_wf, reachable_pressedWorld.
  split; [exact Hwf |].
  pose proof (bootstrap_leaves_existing_graph pressedWorld
                (useSampleData convolutionWav loaded) initialDestinationNodes Hwf) as H.
  cbn zeta in H. apply H.
Defined.

(** ** The playback rate in binary64 *)

Section PitchBinary64.

Import PrimFloat.
Import Binary64.

Lemma tablePow_accurate : PowAccurate tablePow.
Proof. constructor; right; left; reflexivity. Qed.

(** The exponents at the notes 12249 and 12261 are exactly 1015 and 1016.
    With a [Math.pow] that is accurate there, 440 * 2^1016 overflows, so the
    rate of note 12261 is [Infinity], while twice the rate of note 12249 is
    finite. *)
Lemma pitchRatio_overflow (pow : float -> float -> float) :
  PowAccurate pow ->
  floatValue pow (pitchRatio (12249 + 12)) = infinity /\
  is_finite (double (floatValue pow (pitchRatio 12249))) = true /\
  equals (floatValue pow (pitchRatio (12249 + 12)))
         (double (floatValue pow (pitchRatio 12249))) = false.
Proof.
  intros [H1 H2 H3]. unfold withinOneUlp in *. vm_compute in H1, H2, H3.
  vm_compute.
  destruct H1 as [-> | [-> | ->]], H2 as [-> | [-> | ->]], H3 as [-> | [-> | ->]];
    vm_compute; repeat split.
Qed.

(** The rate of the reference note 60 is exactly 1. *)
Lemma pitchRatio_reference (pow : float -> float -> float) :
  PowAccurate pow -> floatValue pow (pitchRatio 60) = 1%float.
Proof.
  intros [_ _ H3]. unfold withinOneUlp in *. vm_compute in H3. vm_compute.
  destruct H3 as [-> | [-> | ->]]; vm_compute; reflexivity.
Qed.

(** C8, as stated, fails in the arithmetic of the code: for every
    [Math.pow] that is accurate to one unit in the last place at the
    arguments involved (there are such functions), at [n = 12249] the two
    sides of [pitchRatio(n+12) == 2 * pitchRatio(n)] are [Infinity] and a
    finite number, and [==] gives false. *)
Lemma pitchRatio_octave_overflow :
  (exists pow, PowAccurate pow) /\
  (forall pow, PowAccurate pow ->
     floatValue pow (pitchRatio (12249 + 12)) = infinity /\
     is_finite (double (floatValue pow (pitchRatio 12249))) = true /\
     equals (floatValue pow (pitchRatio (12249 + 12)))
            (double (floatValue pow (pitchRatio 12249))) = false).
Proof.
  split; [exists tablePow; apply tablePow_accurate |].
  apply pitchRatio_overflow.
Qed.

(** C8, amended: the real numbers that the two sides denote, with
    [frequency(n) = 440 * 2^((n-69)/12)] evaluated exactly, are equal for
    every integer [n].  The binary64 numbers the code computes are not equal
    for every [n]: with a [Math.pow] accurate to one unit in the last place
    at the arguments involved, the rate of note 60 is exactly 1, and at
    [n = 12249] the left side is [Infinity] and the right side finite. *)
Theorem pitchRatio_octave (pow : float -> float -> float) :
  PowAccurate pow ->
  (forall n : Z, realValue (pitchRatio (n + 12)) = (2 * realValue (pitchRatio n))%R) /\
  floatValue pow (pitchRatio 60) = 1%float /\
  equals (floatValue pow (pitchRatio (12249 + 12)))
         (double (floatValue pow (pitchRatio 12249))) = false.
Proof.
  intros Hpow. split; [apply pitchRatio_octave_real |].
  split; [by apply pitchRatio_reference |].
  by apply pitchRatio_overflow.
Qed.

Lemma pitchRatio_octave_witness :
  PowAccurate tablePow /\
  floatValue tablePow (pitchRatio 60) = 1%float /\
  equals (floatValue tablePow (pitchRatio (12249 + 12)))
         (double (floatValue tablePow (pitchRatio 12249))) = false.
Proof.
  split; [apply tablePow_accurate |].
  exact (proj2 (pitchRatio_octave tablePow tablePow_accurate)).
Defined.

End PitchBinary64.

(** ** Release from the sustain stage *)






